(** * Job-Application-Agent: the catalog, the relevance scorer and the
      resume customizer, embedded from the Python sources.

    Modelling conventions.
    - A Python [str] is a [string]: a sequence of code points below 256.
      [lower], [split] and [repr] follow what CPython does on that range.
    - A Python [float] score is an exact rational ([Qc]): every score of
      the program is a quotient of two small cardinalities or a literal.
    - A Python [set] of strings is a [gset string], a [dict] with string
      keys is a [gmap string _].
    - An exception is a value of [exn] carried by the [result] monad. *)

From Stdlib Require Import String Ascii ZArith QArith Qcanon DecimalString Lqa.
From stdpp Require Import base numbers list gmap strings sorting.

Local Open Scope string_scope.
Local Open Scope Z_scope.

(** ** Exceptions *)

Inductive exn := KeyError | TypeError | AttributeError.

Inductive result (A : Type) :=
| Ok (a : A)
| Raise (e : exn).
Arguments Ok {A} a.
Arguments Raise {A} e.

Global Instance result_ret : MRet result := λ A a, Ok a.
Global Instance result_bind : MBind result := λ A B k m,
  match m with Ok a => k a | Raise e => Raise e end.
Global Instance result_fmap : FMap result := λ A B f m,
  match m with Ok a => Ok (f a) | Raise e => Raise e end.

(** ** Strings *)

Module Str.

(** [c.lower()] for one code point below 256: A-Z and the Latin-1
    capitals (all of 0xC0..0xDE but the multiplication sign). *)
Definition lower_char (c : ascii) : ascii :=
  let n := N_of_ascii c in
  if ((65 <=? n) && (n <=? 90) ||
      (192 <=? n) && (n <=? 222) && negb (n =? 215))%N
  then ascii_of_N (n + 32) else c.

Fixpoint lower (s : string) : string :=
  match s with
  | EmptyString => EmptyString
  | String c t => String (lower_char c) (lower t)
  end.

(** [str.isspace] on a code point below 256. *)
Definition is_space (c : ascii) : bool :=
  let n := N_of_ascii c in
  ((9 <=? n) && (n <=? 13) || (28 <=? n) && (n <=? 32) ||
   (n =? 133) || (n =? 160))%N.

(** [s.split()]: the maximal runs of non-space characters. [cur] is the
    run being read, reversed. *)
Fixpoint split_aux (s : string) (cur : list ascii) : list string :=
  let flush rest :=
    match cur with
    | [] => rest
    | _ => string_of_list_ascii (rev cur) :: rest
    end in
  match s with
  | EmptyString => flush []
  | String c t =>
      if is_space c then flush (split_aux t [])
      else split_aux t (c :: cur)
  end.

Definition split (s : string) : list string := split_aux s [].

Fixpoint dropwhile_space (l : list ascii) : list ascii :=
  match l with
  | [] => []
  | c :: l' => if is_space c then dropwhile_space l' else l
  end.

(** [sep.join(l)] *)
Definition join (sep : string) (l : list string) : string :=
  String.concat sep l.

(** [needle in hay] *)
Fixpoint contains (needle hay : string) : bool :=
  String.prefix needle hay ||
  match hay with
  | EmptyString => false
  | String _ t => contains needle t
  end.

(** [s.strip()] *)
Fixpoint lstrip (s : string) : string :=
  match s with
  | EmptyString => EmptyString
  | String c t => if is_space c then lstrip t else s
  end.

Definition rstrip (s : string) : string :=
  string_of_list_ascii
    (rev (dropwhile_space (rev (list_ascii_of_string s)))).

Definition strip (s : string) : string := rstrip (lstrip s).

(** The one-character string of a line feed. *)
Definition nl : string := String (ascii_of_N 10) EmptyString.

(** [str(z)] for an int. *)
Definition of_int (z : Z) : string := NilZero.string_of_int (Z.to_int z).

(** The characters of a string, as Python iterates over it. *)
Definition chars (s : string) : list string :=
  map (λ c, String c EmptyString) (list_ascii_of_string s).

Definition hex_digit (n : N) : ascii :=
  ascii_of_N (if (n <? 10)%N then 48 + n else 87 + n).

(** [repr(s)]: quote choice and escapes as CPython's [unicode_repr]. *)
Definition dquote : ascii := ascii_of_N 34.

Definition has_char (c : ascii) (s : string) : bool :=
  existsb (Ascii.eqb c) (list_ascii_of_string s).

Definition repr_char (quote : ascii) (c : ascii) : string :=
  let n := N_of_ascii c in
  if Ascii.eqb c quote || Ascii.eqb c "\"%char then
    String "\"%char (String c EmptyString)
  else if (n =? 9)%N then "\t"
  else if (n =? 10)%N then "\n"
  else if (n =? 13)%N then "\r"
  else if ((n <? 32) || (n =? 127) || (128 <=? n) && (n <=? 160) ||
           (n =? 173))%N then
    String "\"%char (String "x"%char
      (String (hex_digit (n / 16)) (String (hex_digit (n mod 16)) EmptyString)))
  else String c EmptyString.

Definition repr (s : string) : string :=
  let quote :=
    if has_char "'"%char s && negb (has_char dquote s)
    then dquote else "'"%char in
  String quote
    (String.concat EmptyString (map (repr_char quote) (list_ascii_of_string s))
     ++ String quote EmptyString).

(** [repr(l)] for a list of strings. *)
Definition repr_list (l : list string) : string :=
  "[" ++ join ", " (map repr l) ++ "]".

End Str.

(** ** Values and dictionaries

    The values a job dictionary holds in this program: strings, ints and
    lists of strings. [value] is what a reader of the dictionary sees;
    inside the object store of the scraper a list is held by reference
    (see [Store]). *)

Inductive value :=
| VStr (s : string)
| VInt (z : Z)
| VList (l : list string).

Global Instance value_eq_dec : EqDecision value.
Proof. solve_decision. Defined.

(** Truth value of an object: [if v], [not v]. *)
Definition truthy (v : value) : bool :=
  match v with
  | VStr s => negb (String.eqb s EmptyString)
  | VInt z => negb (z =? 0)
  | VList l => negb (bool_decide (l = []))
  end.

(** [for s in v]: a list yields its items, a string its characters, an
    int is not iterable. *)
Definition iter (v : value) : result (list string) :=
  match v with
  | VStr s => Ok (Str.chars s)
  | VList l => Ok l
  | VInt _ => Raise TypeError
  end.

(** [len(v)] *)
Definition len (v : value) : result nat :=
  match v with
  | VStr s => Ok (String.length s)
  | VList l => Ok (length l)
  | VInt _ => Raise TypeError
  end.

(** [str(v)], as an f-string placeholder formats it. *)
Definition py_str (v : value) : string :=
  match v with
  | VStr s => s
  | VInt z => Str.of_int z
  | VList l => Str.repr_list l
  end.

(** [v.lower()] *)
Definition value_lower (v : value) : result string :=
  match v with
  | VStr s => Ok (Str.lower s)
  | _ => Raise AttributeError
  end.

Abbreviation dict := (gmap string value).

(** [d.get(k, dflt)] *)
Definition get (d : dict) (k : string) (dflt : value) : value :=
  default dflt (d !! k).

(** [d[k]] *)
Definition getitem (d : dict) (k : string) : result value :=
  match d !! k with
  | Some v => Ok v
  | None => Raise KeyError
  end.

(** [isinstance(v, list)] *)
Definition is_list (v : value) : bool :=
  match v with
  | VList _ => true
  | _ => false
  end.

(** [set(s.lower() for s in l)] *)
Definition lower_set (l : list string) : gset string :=
  list_to_set (Str.lower <$> l).

(** [a / b] on ints with [b > 0]. *)
Definition truediv (a b : nat) : Qc :=
  (Qc_of_Z (Z.of_nat a) / Qc_of_Z (Z.of_nat b))%Qc.

Definition Qc_half : Qc := (1 / 2)%Qc.

Definition Qcmin (x y : Qc) : Qc := if decide (x ≤ y)%Qc then x else y.


(** [l.sort(key=key, reverse=True)]: the sort is stable, so its result is
    the one of this insertion sort, which puts an element before the first
    later one whose key is not greater. *)
Section Sorting.
Context {A K : Type} (key : A → K) (lt : relation K) `{!RelDecision lt}.

Fixpoint insert_desc (x : A) (l : list A) : list A :=
  match l with
  | [] => [x]
  | y :: l' =>
      if decide (lt (key x) (key y)) then y :: insert_desc x l'
      else x :: y :: l'
  end.

Definition sort_desc (l : list A) : list A := foldr insert_desc [] l.
End Sorting.

(** ** classifier.py *)

Module JobRelevanceClassifier.

Definition classify_job (job : dict) (resume_skills : list string)
  : result Qc :=
  let job_skills := get job "requirements" (VList []) in
  let job_experience := get job "experience_required" (VInt 0) in
  if negb (truthy job_skills) then Ok Qc_half
  else
    let resume_set := lower_set resume_skills in
    js ← iter job_skills;
    let job_set := lower_set js in
    let matching_skills := size (resume_set ∩ job_set) in
    let total_required := size job_set in
    let skill_score :=
      if decide (0 < total_required)%nat
      then truediv matching_skills total_required else 0%Qc in
    Ok (Qcmin skill_score 1%Qc).

Definition batch_classify (jobs : list dict) (resume_skills : list string)
  : result (list Qc) :=
  mapM (λ job, classify_job job resume_skills) jobs.

(** The loop of [filter_relevant_jobs]: [relevant] is the list built so
    far. *)
Fixpoint filter_loop (jobs : list dict) (resume_skills : list string)
    (threshold : Qc) (relevant : list (dict * Qc))
  : result (list (dict * Qc)) :=
  match jobs with
  | [] => Ok relevant
  | job :: jobs' =>
      score ← classify_job job resume_skills;
      filter_loop jobs' resume_skills threshold
        (if decide (threshold ≤ score)%Qc
         then relevant ++ [(job, score)] else relevant)
  end.

Definition filter_relevant_jobs (jobs : list dict)
    (resume_skills : list string) (threshold : Qc)
  : result (list (dict * Qc)) :=
  relevant ← filter_loop jobs resume_skills threshold [];
  Ok (sort_desc snd Qclt relevant).

Definition rank_jobs (jobs : list dict) (resume_skills : list string)
  : result (list (dict * Qc)) :=
  scored_jobs ← mapM (λ job,
    score ← classify_job job resume_skills; Ok (job, score)) jobs;
  Ok (sort_desc snd Qclt scored_jobs).

Definition _get_recommendation (score : Qc) : string :=
  if decide (Qc_of_Z 8 / Qc_of_Z 10 ≤ score)%Qc
  then "Highly Recommended - Strong match"
  else if decide (Qc_of_Z 6 / Qc_of_Z 10 ≤ score)%Qc
  then "Recommended - Good match"
  else if decide (Qc_of_Z 4 / Qc_of_Z 10 ≤ score)%Qc
  then "Consider - Moderate match"
  else if decide (Qc_of_Z 2 / Qc_of_Z 10 ≤ score)%Qc
  then "Possible - Weak match"
  else "Not Recommended - Poor match".

(** The result of [get_match_details]. The three skill lists are lists
    of a set, in no specified order: they are kept as sets. The
    ['match_percentage'] key, a formatted float, is left out. *)
Record MatchDetails := {
  relevance_score : Qc;
  matching_skills : gset string;
  missing_skills : gset string;
  extra_skills : gset string;
  recommendation : string }.

Definition get_match_details (job : dict) (resume_skills : list string)
  : result MatchDetails :=
  let job_skills := get job "requirements" (VList []) in
  let resume_set := lower_set resume_skills in
  js ← iter job_skills;
  let job_set := lower_set js in
  let matching := resume_set ∩ job_set in
  let missing := job_set ∖ resume_set in
  let extra := resume_set ∖ job_set in
  let score :=
    if decide (0 < size job_set)%nat
    then truediv (size matching) (size job_set) else 0%Qc in
  Ok {| relevance_score := score;
        matching_skills := matching;
        missing_skills := missing;
        extra_skills := extra;
        recommendation := _get_recommendation score |}.

End JobRelevanceClassifier.

(** ** utils.py *)

Module UtilityFunctions.

Definition calculate_skill_match (resume_skills job_skills : list string)
  : Qc :=
  if bool_decide (job_skills = []) then 1%Qc
  else if bool_decide (resume_skills = []) then 0%Qc
  else
    let resume_set := lower_set resume_skills in
    let job_set := lower_set job_skills in
    let matching := size (resume_set ∩ job_set) in
    let total := size job_set in
    if decide (0 < total)%nat then truediv matching total else 0%Qc.


(** The loop over [required_keys]: the first key that is not in [d]. *)
Fixpoint first_missing (required_keys : list string) (d : dict)
  : option string :=
  match required_keys with
  | [] => None
  | key :: required_keys' =>
      if bool_decide (d !! key = None) then Some key
      else first_missing required_keys' d
  end.

Definition validate_job (job : dict) : result (bool * string) :=
  match first_missing ["title"; "company"; "requirements"] job with
  | Some key => Ok (false, "Missing required field: " ++ key)
  | None =>
      title ← getitem job "title";
      if negb (truthy title) then Ok (false, "Title cannot be empty")
      else
        company ← getitem job "company";
        if negb (truthy company) then Ok (false, "Company cannot be empty")
        else
          requirements ← getitem job "requirements";
          if negb (is_list requirements)
          then Ok (false, "Requirements must be a list")
          else Ok (true, EmptyString)
  end.

End UtilityFunctions.

(** ** customizer.py

    The resume dictionaries of the customizer have the keys [__init__]
    gives the sample resume, typed as there; ['customized_for'] is present
    on a customized resume only. *)

Module ResumeCustomizer.

Record CustomizedFor := {
  job_title : value;
  company : value;
  matching_skills : list string;
  match_score : Qc }.

Record Resume := {
  name : string;
  email : string;
  phone : string;
  location : string;
  experience : Z;
  skills : list string;
  summary : string;
  experience_details : list string;
  education : string;
  certifications : list string;
  customized_for : option CustomizedFor }.

(** The object: the two constructor arguments and the sample resume. *)
Record t (Model Vocab : Type) := {
  model : Model;
  vocab : Vocab;
  sample_resume : Resume }.
Arguments model {Model Vocab} _.
Arguments vocab {Model Vocab} _.
Arguments sample_resume {Model Vocab} _.

Definition sample_skills : list string :=
  ["Python"; "Java"; "Docker"; "Kubernetes"; "AWS";
   "Machine Learning"; "PostgreSQL"; "REST API"; "Git"].

Definition __init__ {Model Vocab} (m : Model) (v : Vocab) : t Model Vocab :=
  {| model := m;
     vocab := v;
     sample_resume := {|
       name := "Alex Chen";
       email := "alex.chen@email.com";
       phone := "+1-555-0123";
       location := "San Francisco, CA";
       experience := 6;
       skills := sample_skills;
       summary := "Experienced software engineer with 6+ years building scalable distributed systems and machine learning applications";
       experience_details := [
         "Led team of 8 engineers developing microservices platform serving 10M+ users";
         "Architected and deployed Kubernetes infrastructure reducing deployment time by 70%";
         "Implemented ML pipeline processing 1B+ events daily with 99.9% uptime";
         "Reduced API latency by 60% through query optimization and caching strategies" ];
       education := "BS Computer Science, Stanford University";
       certifications :=
         ["AWS Certified Solutions Architect"; "Kubernetes Administrator"];
       customized_for := None |} |}.

Definition _get_matching_skills (resume_skills : list string)
    (job_skills : value) : result (list string) :=
  let resume_set := lower_set resume_skills in
  js ← iter job_skills;
  let job_set := lower_set js in
  let matching := resume_set ∩ job_set in
  Ok (filter (λ s, Str.lower s ∈ matching) resume_skills).

Definition _generate_custom_summary (resume : Resume)
    (job_title company : value) (matching_skills : list string) : string :=
  let experience_years := experience resume in
  let skills_str := Str.join ", " (take 5 matching_skills) in
  "Experienced software engineer with " ++ Str.of_int experience_years
    ++ "+ years of expertise "
    ++ "specializing in " ++ skills_str ++ ". "
    ++ "Proven track record in building scalable systems and delivering high-impact solutions. "
    ++ "Passionate about leveraging technology to solve complex problems.".

Definition _select_relevant_experience (experience_details : list string)
    (job_skills : value) : result (list string) :=
  js ← iter job_skills;
  let job_skills_lower := lower_set js in
  let scored_experiences :=
    map (λ exp,
      let exp_lower := Str.lower exp in
      let score :=
        length (filter (λ skill, Str.contains skill exp_lower = true)
                       (elements job_skills_lower)) in
      (score, exp)) experience_details in
  let sorted := sort_desc fst lt scored_experiences in
  Ok (map snd (take 4 sorted)).

Definition customize_for_job {Model Vocab} (self : t Model Vocab)
    (job : dict) : result Resume :=
  let job_desc := get job "description" (VStr EmptyString) in
  let job_title := get job "title" (VStr EmptyString) in
  let job_skills := get job "requirements" (VList []) in
  let company := get job "company" (VStr EmptyString) in
  let sr := sample_resume self in
  matching_skills ← _get_matching_skills (skills sr) job_skills;
  let prioritized_skills :=
    (matching_skills ++
     filter (λ s, s ∉ matching_skills) (skills sr))%list in
  let customized_summary :=
    _generate_custom_summary sr job_title company matching_skills in
  relevant_experience ←
    _select_relevant_experience (experience_details sr) job_skills;
  score ←
    (if truthy job_skills
     then n ← len job_skills; Ok (truediv (length matching_skills) n)
     else Ok 0%Qc);
  Ok {| name := name sr;
        email := email sr;
        phone := phone sr;
        location := location sr;
        experience := experience sr;
        skills := take 10 prioritized_skills;
        summary := customized_summary;
        experience_details := relevant_experience;
        education := education sr;
        certifications := certifications sr;
        customized_for := Some {|
          job_title := job_title;
          company := company;
          matching_skills := matching_skills;
          match_score := score |} |}.

Definition generate_cover_letter {Model Vocab} (self : t Model Vocab)
    (job : dict) (resume : Resume) : string :=
  let name_ := name resume in
  let job_title := py_str (get job "title" (VStr "Position")) in
  let company := py_str (get job "company" (VStr "Company")) in
  let matching_skills :=
    match customized_for resume with
    | Some c => matching_skills c
    | None => []
    end in
  Str.strip (
    Str.nl ++
    "Dear Hiring Manager," ++ Str.nl ++
    Str.nl ++
    "I am writing to express my strong interest in the " ++ job_title
      ++ " position at " ++ company ++ ". " ++ Str.nl ++
    "With " ++ Str.of_int (experience resume)
      ++ " years of professional experience and expertise in " ++ Str.nl ++
    Str.join ", " (take 3 matching_skills)
      ++ ", I am confident I would be a valuable addition to your team."
      ++ Str.nl ++
    Str.nl ++
    summary resume ++ Str.nl ++
    Str.nl ++
    "I am particularly excited about this opportunity because it aligns perfectly with my "
      ++ Str.nl ++
    "technical skills and career goals. I look forward to the possibility of discussing how "
      ++ Str.nl ++
    "my experience and skills can contribute to " ++ company
      ++ "'s success." ++ Str.nl ++
    Str.nl ++
    "Thank you for considering my application." ++ Str.nl ++
    Str.nl ++
    "Best regards," ++ Str.nl ++
    name_ ++ Str.nl ++
    "        ").

Definition batch_customize {Model Vocab} (self : t Model Vocab)
    (jobs : list dict) : result (list Resume) :=
  mapM (customize_for_job self) jobs.

Definition get_sample_resume {Model Vocab} (self : t Model Vocab) : Resume :=
  sample_resume self.

End ResumeCustomizer.

(** ** The object store

    Dictionaries and lists are objects held by reference, so that a copy
    and its original can be told apart and a shared list is shared. *)

Abbreviation loc := positive.

Inductive hval :=
| HStr (s : string)
| HInt (z : Z)
| HRef (l : loc).

Global Instance hval_eq_dec : EqDecision hval.
Proof. solve_decision. Defined.

Inductive obj :=
| ODict (d : gmap string hval)
| OList (l : list string).

Module Store.

Definition alloc (h : gmap loc obj) (o : obj) : loc * gmap loc obj :=
  let l := fresh (dom h) in (l, <[l := o]> h).

(** What a reader sees behind a stored value; a reference to anything
    but a list of strings is outside [value]. *)
Definition resolve (h : gmap loc obj) (v : hval) : option value :=
  match v with
  | HStr s => Some (VStr s)
  | HInt z => Some (VInt z)
  | HRef l =>
      match h !! l with
      | Some (OList xs) => Some (VList xs)
      | _ => None
      end
  end.

(** The dictionary at [l] as a reader sees it. *)
Definition snapshot (h : gmap loc obj) (l : loc) : option dict :=
  match h !! l with
  | Some (ODict d) => Some (omap (resolve h) d)
  | _ => None
  end.

Definition deref_dict (h : gmap loc obj) (l : loc)
  : result (gmap string hval) :=
  match h !! l with
  | Some (ODict d) => Ok d
  | _ => Raise TypeError
  end.

(** [d[k]], read through the store. *)
Definition item (h : gmap loc obj) (d : gmap string hval) (k : string)
  : result value :=
  match d !! k with
  | None => Raise KeyError
  | Some hv =>
      match resolve h hv with
      | Some v => Ok v
      | None => Raise TypeError
      end
  end.

(** [d[k] = v] on the dictionary at [l]. *)
Definition setitem (h : gmap loc obj) (l : loc) (k : string) (v : hval)
  : gmap loc obj :=
  alter (λ o, match o with
              | ODict d => ODict (<[k := v]> d)
              | OList _ => o
              end) l h.

(** [o.copy()]: a new object with the same items, held values shared. *)
Definition copy (h : gmap loc obj) (l : loc) : result (loc * gmap loc obj) :=
  match h !! l with
  | Some o => Ok (alloc h o)
  | None => Raise TypeError
  end.

(** Evaluation of a literal: a list literal makes a new list object. *)
Definition store_value (h : gmap loc obj) (v : value) : hval * gmap loc obj :=
  match v with
  | VStr s => (HStr s, h)
  | VInt z => (HInt z, h)
  | VList xs => let '(l, h') := alloc h (OList xs) in (HRef l, h')
  end.

Fixpoint store_items (h : gmap loc obj) (d : gmap string hval)
    (items : list (string * value)) : gmap string hval * gmap loc obj :=
  match items with
  | [] => (d, h)
  | (k, v) :: rest =>
      let '(hv, h1) := store_value h v in
      store_items h1 (<[k := hv]> d) rest
  end.

Definition store_dict (h : gmap loc obj) (items : list (string * value))
  : loc * gmap loc obj :=
  let '(d, h1) := store_items h ∅ items in alloc h1 (ODict d).

End Store.

(** [l[:limit]] *)
Definition slice_to {A} (limit : Z) (l : list A) : list A :=
  if 0 <=? limit then take (Z.to_nat limit) l
  else take (length l - Z.to_nat (- limit)) l.

(** ** scraper.py *)

Module JobScraper.

Definition job_001 : list (string * value) :=
  [
    ("id", VStr "job_001");
    ("title", VStr "Senior Python Developer");
    ("company", VStr "Tech Giants Inc");
    ("location", VStr "Remote");
    ("description", VStr "We are looking for an experienced Python developer with 5+ years expertise in Django, FastAPI, and cloud technologies.");
    ("requirements", VList ["Python"; "Django"; "FastAPI"; "Docker"; "AWS"; "PostgreSQL"; "REST API"]);
    ("experience_required", VInt 5);
    ("salary_range", VStr "$120k - $160k");
    ("posted_date", VStr "2025-11-01");
    ("job_type", VStr "Full-time") ].

Definition job_002 : list (string * value) :=
  [
    ("id", VStr "job_002");
    ("title", VStr "React Frontend Developer");
    ("company", VStr "Innovation Labs");
    ("location", VStr "San Francisco, CA");
    ("description", VStr "Build amazing web applications with React, TypeScript, and modern frontend tools.");
    ("requirements", VList ["React"; "TypeScript"; "JavaScript"; "CSS"; "REST API"; "Git"]);
    ("experience_required", VInt 3);
    ("salary_range", VStr "$100k - $140k");
    ("posted_date", VStr "2025-11-03");
    ("job_type", VStr "Full-time") ].

Definition job_003 : list (string * value) :=
  [
    ("id", VStr "job_003");
    ("title", VStr "Machine Learning Engineer");
    ("company", VStr "AI Solutions Corp");
    ("location", VStr "Remote");
    ("description", VStr "Develop and deploy machine learning models using TensorFlow, PyTorch, and cloud infrastructure.");
    ("requirements", VList ["Python"; "Machine Learning"; "TensorFlow"; "PyTorch"; "SQL"; "AWS"; "Docker"]);
    ("experience_required", VInt 4);
    ("salary_range", VStr "$130k - $180k");
    ("posted_date", VStr "2025-11-05");
    ("job_type", VStr "Full-time") ].

Definition job_004 : list (string * value) :=
  [
    ("id", VStr "job_004");
    ("title", VStr "DevOps Engineer");
    ("company", VStr "Cloud Systems Ltd");
    ("location", VStr "New York, NY");
    ("description", VStr "Manage cloud infrastructure, CI/CD pipelines, and deployment automation.");
    ("requirements", VList ["Docker"; "Kubernetes"; "AWS"; "Jenkins"; "Terraform"; "Linux"; "Python"]);
    ("experience_required", VInt 3);
    ("salary_range", VStr "$110k - $150k");
    ("posted_date", VStr "2025-11-06");
    ("job_type", VStr "Full-time") ].

Definition job_005 : list (string * value) :=
  [
    ("id", VStr "job_005");
    ("title", VStr "Full Stack Developer");
    ("company", VStr "StartUp Co");
    ("location", VStr "Austin, TX");
    ("description", VStr "Build end-to-end web applications using modern tech stack. Startup environment.");
    ("requirements", VList ["React"; "Node.js"; "MongoDB"; "REST API"; "JavaScript"; "Docker"]);
    ("experience_required", VInt 2);
    ("salary_range", VStr "$90k - $130k");
    ("posted_date", VStr "2025-11-07");
    ("job_type", VStr "Full-time") ].

Definition job_006 : list (string * value) :=
  [
    ("id", VStr "job_006");
    ("title", VStr "Data Engineer");
    ("company", VStr "Data Corp");
    ("location", VStr "Seattle, WA");
    ("description", VStr "Build data pipelines and infrastructure for analytics at scale.");
    ("requirements", VList ["Python"; "SQL"; "Spark"; "Kafka"; "AWS"; "Airflow"; "ETL"]);
    ("experience_required", VInt 4);
    ("salary_range", VStr "$120k - $160k");
    ("posted_date", VStr "2025-11-08");
    ("job_type", VStr "Full-time") ].

Definition job_007 : list (string * value) :=
  [
    ("id", VStr "job_007");
    ("title", VStr "Backend Engineer");
    ("company", VStr "Microservices Inc");
    ("location", VStr "Remote");
    ("description", VStr "Design and implement scalable microservices architecture.");
    ("requirements", VList ["Java"; "Spring"; "Microservices"; "Kubernetes"; "REST API"; "PostgreSQL"]);
    ("experience_required", VInt 5);
    ("salary_range", VStr "$125k - $170k");
    ("posted_date", VStr "2025-11-09");
    ("job_type", VStr "Full-time") ].

Definition job_008 : list (string * value) :=
  [
    ("id", VStr "job_008");
    ("title", VStr "Cloud Architect");
    ("company", VStr "Enterprise Tech");
    ("location", VStr "Boston, MA");
    ("description", VStr "Design cloud-native solutions and lead architecture decisions.");
    ("requirements", VList ["AWS"; "Azure"; "Kubernetes"; "Terraform"; "Python"; "Microservices"]);
    ("experience_required", VInt 7);
    ("salary_range", VStr "$150k - $200k");
    ("posted_date", VStr "2025-11-10");
    ("job_type", VStr "Full-time") ].

Definition catalog : list (list (string * value)) :=
  [job_001; job_002; job_003; job_004; job_005; job_006; job_007; job_008].

(** The object: its list of job dictionaries, and the store they live
    in. *)
Record t := {
  heap : gmap loc obj;
  sample_jobs : list loc }.

Fixpoint store_jobs (h : gmap loc obj) (jobs : list (list (string * value)))
  : list loc * gmap loc obj :=
  match jobs with
  | [] => ([], h)
  | j :: rest =>
      let '(l, h1) := Store.store_dict h j in
      let '(ls, h2) := store_jobs h1 rest in
      (l :: ls, h2)
  end.

Definition __init__ (h : gmap loc obj) : t :=
  let '(ls, h') := store_jobs h catalog in
  {| heap := h'; sample_jobs := ls |}.

(** The searchable text of a job. *)
Definition job_text (h : gmap loc obj) (job : gmap string hval)
  : result string :=
  title ← Store.item h job "title";
  description ← Store.item h job "description";
  requirements ← Store.item h job "requirements";
  words ← iter requirements;
  Ok (Str.lower (py_str title ++ " " ++ py_str description ++ " "
                 ++ Str.join " " words)).

(** The two checks of the loop body: [false] where the body reaches a
    [continue]. *)
Definition job_matches (keyword_list : list string) (location : string)
    (h : gmap loc obj) (job : gmap string hval) : result bool :=
  text ← job_text h job;
  if bool_decide (keyword_list ≠ []) &&
     negb (existsb (λ kw, Str.contains kw text) keyword_list)
  then Ok false
  else if truthy (VStr location) then
    jl ← Store.item h job "location";
    jl_lower ← value_lower jl;
    Ok (Str.contains (Str.lower location) jl_lower)
  else Ok true.

Fixpoint search_loop (keyword_list : list string) (location : string)
    (jobs : list loc) (h : gmap loc obj) (matched_jobs : list loc)
  : result (list loc * gmap loc obj) :=
  match jobs with
  | [] => Ok (matched_jobs, h)
  | job :: jobs' =>
      d ← Store.deref_dict h job;
      b ← job_matches keyword_list location h d;
      if b : bool then
        let c := Store.alloc h (ODict d) in
        search_loop keyword_list location jobs' c.2 (matched_jobs ++ [c.1])
      else search_loop keyword_list location jobs' h matched_jobs
  end.

Definition search_jobs (self : t) (keywords location : string) (limit : Z)
  : result (list loc * t) :=
  let keyword_list :=
    if truthy (VStr keywords) then Str.split (Str.lower keywords) else [] in
  r ← search_loop keyword_list location (sample_jobs self) (heap self) [];
  Ok (slice_to limit r.1,
      {| heap := r.2; sample_jobs := sample_jobs self |}).

Fixpoint by_id_loop (job_id : string) (jobs : list loc) (h : gmap loc obj)
  : result (option loc * gmap loc obj) :=
  match jobs with
  | [] => Ok (None, h)
  | job :: jobs' =>
      d ← Store.deref_dict h job;
      v ← Store.item h d "id";
      if bool_decide (v = VStr job_id) then
        let c := Store.alloc h (ODict d) in Ok (Some c.1, c.2)
      else by_id_loop job_id jobs' h
  end.

Definition get_job_by_id (self : t) (job_id : string)
  : result (option loc * t) :=
  r ← by_id_loop job_id (sample_jobs self) (heap self);
  Ok (r.1, {| heap := r.2; sample_jobs := sample_jobs self |}).

Fixpoint copy_all (jobs : list loc) (h : gmap loc obj)
  : result (list loc * gmap loc obj) :=
  match jobs with
  | [] => Ok ([], h)
  | job :: jobs' =>
      c ← Store.copy h job;
      r ← copy_all jobs' c.2;
      Ok (c.1 :: r.1, r.2)
  end.

Definition get_all_jobs (self : t) : result (list loc * t) :=
  r ← copy_all (sample_jobs self) (heap self);
  Ok (r.1, {| heap := r.2; sample_jobs := sample_jobs self |}).

Definition get_job_count (self : t) : nat := length (sample_jobs self).



Fixpoint filter_by_skills (jobs : list dict) (required_skills : list string)
  : result (list dict) :=
  let required_set := lower_set required_skills in
  match jobs with
  | [] => Ok []
  | job :: jobs' =>
      js ← iter (get job "requirements" (VList []));
      let job_skills := lower_set js in
      rest ← filter_by_skills jobs' required_skills;
      Ok (if bool_decide (required_set ∩ job_skills ≠ ∅)
          then job :: rest else rest)
  end.

End JobScraper.

(** ** agent.py *)

Module JobApplicationAgent.

Record Application := {
  job : loc;
  relevance_score : Qc;
  match_details : JobRelevanceClassifier.MatchDetails;
  customized_resume : ResumeCustomizer.Resume;
  cover_letter : string;
  application_status : string;
  recommended_action : string }.

(** The result of [run_workflow]: the keys that are counts or records.
    ['pass_rate'], ['avg_relevance_score'] and ['summary'] (float
    statistics of the applications and their formatting) are left
    out. *)
Record WorkflowResult := {
  total_jobs_found : nat;
  relevant_jobs : nat;
  applications : list Application }.

Record t (Model Vocab : Type) := {
  scraper : JobScraper.t;
  customizer : ResumeCustomizer.t Model Vocab;
  workflow_results : list WorkflowResult }.
Arguments scraper {Model Vocab} _.
Arguments customizer {Model Vocab} _.
Arguments workflow_results {Model Vocab} _.

Definition __init__ {Model Vocab} (scraper : JobScraper.t)
    (customizer : ResumeCustomizer.t Model Vocab) : t Model Vocab :=
  {| scraper := scraper; customizer := customizer; workflow_results := [] |}.

(** Step 3 of [run_workflow]: the loop over the jobs found. *)
Fixpoint apply_loop {Model Vocab} (cust : ResumeCustomizer.t Model Vocab)
    (h : gmap loc obj) (resume_skills : list string) (min_relevance : Qc)
    (jobs : list loc) (applications : list Application)
  : result (list Application) :=
  match jobs with
  | [] => Ok applications
  | j :: jobs' =>
      d ← match Store.snapshot h j with
          | Some d => Ok d
          | None => Raise TypeError
          end;
      score ← JobRelevanceClassifier.classify_job d resume_skills;
      if decide (min_relevance ≤ score)%Qc then
        customized ← ResumeCustomizer.customize_for_job cust d;
        details ← JobRelevanceClassifier.get_match_details d resume_skills;
        let application := {|
          job := j;
          relevance_score := score;
          match_details := details;
          customized_resume := customized;
          cover_letter :=
            ResumeCustomizer.generate_cover_letter cust d customized;
          application_status := "Ready to Apply";
          recommended_action :=
            JobRelevanceClassifier.recommendation details |} in
        apply_loop cust h resume_skills min_relevance jobs'
          (applications ++ [application])
      else
        apply_loop cust h resume_skills min_relevance jobs' applications
  end.

Definition run_workflow {Model Vocab} (self : t Model Vocab)
    (keywords location : string) (num_jobs : Z) (min_relevance : Qc)
  : result (WorkflowResult * t Model Vocab) :=
  found ← JobScraper.search_jobs (scraper self) keywords location num_jobs;
  let jobs := found.1 in
  if bool_decide (jobs = []) then
    Ok ({| total_jobs_found := 0; relevant_jobs := 0; applications := [] |},
        {| scraper := found.2; customizer := customizer self;
           workflow_results := workflow_results self |})
  else
    let resume := ResumeCustomizer.get_sample_resume (customizer self) in
    let resume_skills := ResumeCustomizer.skills resume in
    applications ← apply_loop (customizer self) (JobScraper.heap found.2)
                      resume_skills min_relevance jobs [];
    let applications := sort_desc relevance_score Qclt applications in
    let workflow_result := {|
      total_jobs_found := length jobs;
      relevant_jobs := length applications;
      applications := applications |} in
    Ok (workflow_result,
        {| scraper := found.2; customizer := customizer self;
           workflow_results := workflow_results self ++ [workflow_result] |}).


(** The record [apply_to_job] returns; [job.get(k)] is [None] for a
    missing key. *)
Module ApplicationResult.
Record t := {
  job_id : option value;
  job_title : option value;
  company : option value;
  application_date : string;
  status : string;
  relevance_score : Qc;
  resume_customized : bool;
  cover_letter_included : bool;
  message : string }.
End ApplicationResult.

(** The job of an application is a dictionary of the store of the
    scraper; an object without [get] raises an AttributeError. *)
Definition apply_to_job {Model Vocab} (self : t Model Vocab)
    (application : Application) : result ApplicationResult.t :=
  job ← match Store.snapshot (JobScraper.heap (scraper self))
                (job application) with
        | Some d => Ok d
        | None => Raise AttributeError
        end;
  Ok {| ApplicationResult.job_id := job !! "id";
        ApplicationResult.job_title := job !! "title";
        ApplicationResult.company := job !! "company";
        ApplicationResult.application_date := "2025-11-10";
        ApplicationResult.status := "Submitted";
        ApplicationResult.relevance_score := relevance_score application;
        ApplicationResult.resume_customized := true;
        ApplicationResult.cover_letter_included := true;
        ApplicationResult.message := "Application successfully submitted" |}.

Fixpoint batch_apply_loop {Model Vocab} (self : t Model Vocab)
    (applications : list Application) (auto_apply_threshold : Qc)
    (results : list ApplicationResult.t)
  : result (list ApplicationResult.t) :=
  match applications with
  | [] => Ok results
  | app :: applications' =>
      if decide (auto_apply_threshold ≤ relevance_score app)%Qc then
        r ← apply_to_job self app;
        batch_apply_loop self applications' auto_apply_threshold
          (results ++ [r])
      else batch_apply_loop self applications' auto_apply_threshold results
  end.

Definition batch_apply {Model Vocab} (self : t Model Vocab)
    (applications : list Application) (auto_apply_threshold : Qc)
  : result (list ApplicationResult.t) :=
  batch_apply_loop self applications auto_apply_threshold [].


Definition clear_history {Model Vocab} (self : t Model Vocab)
  : t Model Vocab :=
  {| scraper := scraper self; customizer := customizer self;
     workflow_results := [] |}.

End JobApplicationAgent.

(** ** mayini_model.py: the transformer block

    Tensors and the layers of the framework are taken as given: a layer is
    a function of its input, and [+] on tensors is [tensor_add]. *)

Class TensorAdd (Tensor : Type) := tensor_add : Tensor → Tensor → Tensor.

Module MAYINITransformerBlock.

Record t (Tensor Mask : Type) := {
  (** [nn.MultiheadAttention]: query, key, value and the key padding
      mask give the output and the attention weights. *)
  attention : Tensor → Tensor → Tensor → option Mask → Tensor * Tensor;
  feed_forward : Tensor → Tensor;
  norm1 : Tensor → Tensor;
  norm2 : Tensor → Tensor;
  dropout : Tensor → Tensor }.
Arguments attention {Tensor Mask} _.
Arguments feed_forward {Tensor Mask} _.
Arguments norm1 {Tensor Mask} _.
Arguments norm2 {Tensor Mask} _.
Arguments dropout {Tensor Mask} _.

Section Forward.
Context {Tensor Mask : Type} {tensor_ops : TensorAdd Tensor}.

Definition forward (self : t Tensor Mask) (x : Tensor)
    (mask : option Mask) : Tensor :=
  let '(attn_out, _) := attention self x x x mask in
  let x := norm1 self (tensor_add x (dropout self attn_out)) in
  let ff_out := feed_forward self x in
  let x := norm2 self (tensor_add x ff_out) in
  x.

(** The post-norm residual pattern, as the specification words it. *)
Definition post_norm (self : t Tensor Mask) (x : Tensor)
    (mask : option Mask) : Tensor :=
  let y :=
    norm1 self
      (tensor_add x (dropout self (attention self x x x mask).1)) in
  norm2 self (tensor_add y (feed_forward self y)).

(** The pre-norm pattern, for contrast: normalization before each
    sublayer, none after the residual additions. *)
Definition pre_norm (self : t Tensor Mask) (x : Tensor)
    (mask : option Mask) : Tensor :=
  let n := norm1 self x in
  let y := tensor_add x (dropout self (attention self n n n mask).1) in
  tensor_add y (feed_forward self (norm2 self y)).
End Forward.

End MAYINITransformerBlock.

(** ** mayini_model.py: the vocabulary

    A tensor of token ids is a list of ints. *)

Module MAYINIVocabulary.

Record t := {
  vocab_size : Z;
  word_to_id : gmap string Z;
  id_to_word : gmap Z string;
  current_vocab_size : nat }.

Definition special_tokens : gmap string Z :=
  {[ "<PAD>" := 0; "<UNK>" := 1; "<START>" := 2; "<END>" := 3; "<MASK>" := 4 ]}.

Definition common_terms : list string :=
  [ "python"; "java"; "javascript"; "typescript"; "c++"; "go"; "rust";
    "swift"; "react"; "angular"; "vue"; "django"; "flask"; "spring";
    "nodejs"; "express"; "docker"; "kubernetes"; "aws"; "azure"; "gcp";
    "jenkins"; "gitlab"; "terraform"; "sql"; "mysql"; "postgresql";
    "mongodb"; "redis"; "elasticsearch"; "developed"; "implemented";
    "designed"; "engineered"; "architected"; "led"; "managed";
    "coordinated"; "optimized"; "improved"; "accelerated"; "launched";
    "delivered"; "built"; "created"; "maintained"; "scaled"; "team";
    "project"; "feature"; "product"; "system"; "application"; "service";
    "platform"; "infrastructure"; "api"; "microservice"; "database";
    "senior"; "junior"; "lead"; "principal"; "staff"; "full-stack";
    "back-end"; "front-end"; "experience"; "years"; "skills";
    "proficiency"; "expertise"; "knowledge"; "requirements";
    "responsibilities"; "qualifications"; "benefits" ].

(** The loop of [__init__] over the common terms: [idx] is the next id,
    [w] the dictionary built so far. *)
Fixpoint add_terms (vocab_size : Z) (terms : list string) (idx : Z)
    (w : gmap string Z) : gmap string Z :=
  match terms with
  | [] => w
  | term :: terms' =>
      if bool_decide (idx < vocab_size)
      then add_terms vocab_size terms' (idx + 1) (<[term := idx]> w)
      else add_terms vocab_size terms' idx w
  end.

(** [{v: k for k, v in d.items()}]: no two words of the dictionary built
    by [__init__] share an id, so the order of the items does not
    matter. *)
Definition reverse_mapping (w : gmap string Z) : gmap Z string :=
  list_to_map ((λ kv, (kv.2, kv.1)) <$> map_to_list w).

Definition __init__ (vocab_size : Z) : t :=
  let w := add_terms vocab_size common_terms 5 special_tokens in
  {| vocab_size := vocab_size;
     word_to_id := w;
     id_to_word := reverse_mapping w;
     current_vocab_size := size w |}.

(** [d[k]] on the word dictionary. *)
Definition word_id (self : t) (k : string) : result Z :=
  match word_to_id self !! k with
  | Some i => Ok i
  | None => Raise KeyError
  end.

(** The first loop of [encode]. *)
Fixpoint encode_tokens (self : t) (tokens : list string) : result (list Z) :=
  match tokens with
  | [] => Ok []
  | token :: tokens' =>
      unk ← word_id self "<UNK>";
      let token_id := default unk (word_to_id self !! token) in
      rest ← encode_tokens self tokens';
      Ok (token_id :: rest)
  end.

(** The padding loop of [encode]: [n] ids are missing. *)
Fixpoint pad (self : t) (n : nat) (token_ids : list Z) : result (list Z) :=
  match n with
  | O => Ok token_ids
  | S n' =>
      p ← word_id self "<PAD>";
      pad self n' (token_ids ++ [p])
  end.

Definition encode (self : t) (text : string) (max_len : Z)
  : result (list Z) :=
  let tokens := Str.split (Str.lower text) in
  token_ids ← encode_tokens self (slice_to max_len tokens);
  token_ids ←
    pad self (Z.to_nat (max_len - Z.of_nat (length token_ids))) token_ids;
  Ok (slice_to max_len token_ids).

Definition decode (self : t) (token_ids : list Z) : string :=
  let words :=
    filter (λ word, String.prefix "<" word = false)
      ((λ token, default "<UNK>" (id_to_word self !! token)) <$> token_ids) in
  Str.join " " words.

Definition batch_encode (self : t) (texts : list string) (max_len : Z)
  : result (list (list Z)) :=
  mapM (λ text, encode self text max_len) texts.

Definition batch_decode (self : t) (token_ids_batch : list (list Z))
  : list string :=
  decode self <$> token_ids_batch.

End MAYINIVocabulary.

(** ** Vocabulary of the statements *)

(** The Jaccard overlap of two sets, as the specification names it. *)
Definition jaccard (R J : gset string) : Qc :=
  truediv (size (R ∩ J)) (size (R ∪ J)).

(** The share of the requirement set that the resume covers. *)
Definition coverage (R J : gset string) : Qc :=
  truediv (size (R ∩ J)) (size J).

(** The literal dictionaries of the catalog, as values. *)
Definition dict_of_items (items : list (string * value)) : dict :=
  foldl (λ d kv, <[kv.1 := kv.2]> d) ∅ items.

Definition catalog_dicts : list dict := dict_of_items <$> JobScraper.catalog.

Definition is_VStr (o : option value) : bool :=
  match o with Some (VStr _) => true | _ => false end.

Definition is_VList (o : option value) : bool :=
  match o with Some (VList _) => true | _ => false end.

(** The keys a search reads, typed as in the literals of [__init__]. *)
Definition well_typed_job (d : dict) : Prop :=
  is_VStr (d !! "id") ∧ is_VStr (d !! "title") ∧
  is_VStr (d !! "description") ∧ is_VStr (d !! "location") ∧
  is_VList (d !! "requirements").

(** A catalog entry shaped as the entries [__init__] builds: a dictionary
    all of whose values can be read, with strings under ['id'],
    ['title'], ['description'] and ['location'] and a list of strings
    under ['requirements']. *)
Definition job_ok (h : gmap loc obj) (l : loc) : Prop :=
  match h !! l with
  | Some (ODict d) =>
      map_Forall (λ _ hv, is_Some (Store.resolve h hv)) d ∧
      is_VStr (omap (Store.resolve h) d !! "id") ∧
      is_VStr (omap (Store.resolve h) d !! "title") ∧
      is_VStr (omap (Store.resolve h) d !! "description") ∧
      is_VStr (omap (Store.resolve h) d !! "location") ∧
      is_VList (omap (Store.resolve h) d !! "requirements")
  | _ => False
  end.

Global Instance job_ok_dec h l : Decision (job_ok h l).
Proof. unfold job_ok. destruct (h !! l) as [[]|]; apply _. Defined.

Definition catalog_ok (s : JobScraper.t) : Prop :=
  Forall (job_ok (JobScraper.heap s)) (JobScraper.sample_jobs s).

(** The catalog as a reader sees it. *)
Definition catalog_view (s : JobScraper.t) : list (option dict) :=
  Store.snapshot (JobScraper.heap s) <$> JobScraper.sample_jobs s.

(** [c] is a dictionary that did not exist in [h] and holds, in [h'], the
    items of the dictionary [j]. *)
Definition is_copy (h h' : gmap loc obj) (j c : loc) : Prop :=
  (c ∉ dom h) ∧ ∃ d, h' !! j = Some (ODict d) ∧ h' !! c = Some (ODict d).

(** The caller replaces a field of the dictionary at [r]. *)
Definition set_field (s : JobScraper.t) (r : loc) (k : string) (v : hval)
  : JobScraper.t :=
  {| JobScraper.heap := Store.setitem (JobScraper.heap s) r k v;
     JobScraper.sample_jobs := JobScraper.sample_jobs s |}.

(** What a query leaves behind: the same catalog list, every object of the
    old store untouched, and as results new dictionaries, copies of
    catalog entries, whose fields can be replaced without a change to the
    catalog. *)
Definition query_frame (s s' : JobScraper.t) (rs : list loc) : Prop :=
  JobScraper.sample_jobs s' = JobScraper.sample_jobs s ∧
  JobScraper.heap s ⊆ JobScraper.heap s' ∧
  catalog_view s' = catalog_view s ∧
  NoDup rs ∧
  Forall (λ r, (r ∉ JobScraper.sample_jobs s) ∧
               ∃ j, j ∈ JobScraper.sample_jobs s ∧
                    is_copy (JobScraper.heap s) (JobScraper.heap s') j r) rs ∧
  ∀ r k v, r ∈ rs → catalog_view (set_field s' r k v) = catalog_view s.

(** A job whose requirements can be iterated over: absent, a list or a
    string. *)
Definition iterable_requirements (job : dict) : Prop :=
  ∃ js, iter (get job "requirements" (VList [])) = Ok js.

(** Non-increasing order of the scores. *)
Definition non_increasing {A} (score : A → Qc) (l : list A) : Prop :=
  StronglySorted (λ a b, (score b ≤ score a)%Qc) l.

(** The score [classify_job] gives a job (0 where it raises), and the
    jobs of a list paired with their scores, in the order of the list. *)
Definition score_of (resume_skills : list string) (job : dict) : Qc :=
  match JobRelevanceClassifier.classify_job job resume_skills with
  | Ok s => s
  | Raise _ => 0%Qc
  end.

Definition scored (resume_skills : list string) (jobs : list dict)
  : list (dict * Qc) :=
  (λ job, (job, score_of resume_skills job)) <$> jobs.

(** The checks of [job_matches], on a dictionary as a reader sees it. *)
Definition dict_item (d : dict) (k : string) : result value :=
  match d !! k with Some v => Ok v | None => Raise KeyError end.

Definition dict_matches (keyword_list : list string) (location : string)
    (d : dict) : result bool :=
  title ← dict_item d "title";
  description ← dict_item d "description";
  requirements ← dict_item d "requirements";
  words ← iter requirements;
  let text := Str.lower (py_str title ++ " " ++ py_str description ++ " "
                         ++ Str.join " " words) in
  if bool_decide (keyword_list ≠ []) &&
     negb (existsb (λ kw, Str.contains kw text) keyword_list)
  then Ok false
  else if truthy (VStr location) then
    jl ← dict_item d "location";
    jl_lower ← value_lower jl;
    Ok (Str.contains (Str.lower location) jl_lower)
  else Ok true.

(** The jobs a search selects from a catalog, before the limit. *)
Definition selected (keywords location : string) (d : dict) : bool :=
  match dict_matches
          (if truthy (VStr keywords) then Str.split (Str.lower keywords)
           else [])
          location d with
  | Ok b => b
  | Raise _ => false
  end.

Definition search_selects (keywords location : string) (ds : list dict)
  : list dict :=
  filter (λ d, selected keywords location d = true) ds.

(** The ['id'] of a catalog entry is [job_id]. *)
Definition has_id (job_id : string) (d : dict) : bool :=
  bool_decide (d !! "id" = Some (VStr job_id)).

(** The catalog entries a search selects, as references. *)
Definition selected_loc (keywords location : string) (h : gmap loc obj)
    (j : loc) : bool :=
  from_option (selected keywords location) false (Store.snapshot h j).


(** The requirements of a job as [for s in ...] yields them. *)
Definition reqs_of (job : dict) : list string :=
  match iter (get job "requirements" (VList [])) with
  | Ok js => js
  | Raise _ => []
  end.

Global Instance iterable_requirements_dec job :
  Decision (iterable_requirements job).
Proof.
  unfold iterable_requirements.
  destruct (iter (get job "requirements" (VList []))) as [js|e].
  - left. by exists js.
  - right. by intros [js ?].
Defined.


(** The skills of a resume that match a requirement of the job, case
    folded, and the score [_select_relevant_experience] gives a line of
    experience: the number of distinct lowercased requirements it
    contains. *)
Definition matching_of (skills js : list string) : list string :=
  filter (λ s, Str.lower s ∈ lower_set js) skills.

Definition experience_score (js : list string) (exp : string) : nat :=
  length (filter (λ skill, Str.contains skill (Str.lower exp) = true)
                 (elements (lower_set js))).

(** A token that [decode] gives back: a word of the dictionary that does
    not start with ["<"]. *)
Definition known_word (self : MAYINIVocabulary.t) (token : string) : bool :=
  match MAYINIVocabulary.word_to_id self !! token with
  | Some _ => negb (String.prefix "<" token)
  | None => false
  end.

(** * Theorems *)

Example lower_ex : Str.lower "REST API" = "rest api".
Proof. reflexivity. Qed.

Example split_ex : Str.split "  python   aws " = ["python"; "aws"].
Proof. reflexivity. Qed.

Example contains_ex : Str.contains "thon" "python" = true.
Proof. reflexivity. Qed.

Example of_int_ex : Str.of_int 6 = "6".
Proof. reflexivity. Qed.

Example repr_list_ex : Str.repr_list ["a"; "b c"] = "['a', 'b c']".
Proof. reflexivity. Qed.

Example classify_ex :
  JobRelevanceClassifier.classify_job
    {[ "requirements" := VList ["Python"; "Docker"; "AWS"] ]}
    ["python"; "Go"] = Ok (Qc_of_Z 1 / Qc_of_Z 3)%Qc.
Proof. vm_compute. reflexivity. Qed.

Example search_ex :
  match JobScraper.search_jobs (JobScraper.__init__ ∅) "Kafka react" "" 5 with
  | Ok (rs, s) =>
      (λ r, d ← Store.snapshot (JobScraper.heap s) r; d !! "id") <$> rs
  | Raise _ => []
  end = [Some (VStr "job_002"); Some (VStr "job_005"); Some (VStr "job_006")].
Proof. vm_compute. reflexivity. Qed.

(** ** Scores *)

Lemma Qc_of_Z_le (a b : Z) : (a ≤ b)%Z → (Qc_of_Z a ≤ Qc_of_Z b)%Qc.
Proof. intros H. unfold Qcle, Qc_of_Z, Qle. simpl. lia. Qed.

Lemma Qc_of_Z_pos (b : Z) : (0 < b)%Z → (0 < Qc_of_Z b)%Qc.
Proof. intros H. unfold Qclt, Qc_of_Z, Qlt. simpl. lia. Qed.

Lemma truediv_mult (a b : nat) :
  (0 < b)%nat → (Qc_of_Z (Z.of_nat b) * truediv a b)%Qc = Qc_of_Z (Z.of_nat a).
Proof.
  intros Hb. unfold truediv. apply Qcmult_div_r.
  apply not_symmetry, Qclt_not_eq, Qc_of_Z_pos. lia.
Qed.

Lemma truediv_range (a b : nat) :
  (a ≤ b)%nat → (0 < b)%nat → (0 ≤ truediv a b)%Qc ∧ (truediv a b ≤ 1)%Qc.
Proof.
  intros Hab Hb.
  assert (Hpos : (0 < Qc_of_Z (Z.of_nat b))%Qc) by (apply Qc_of_Z_pos; lia).
  split; apply (Qcmult_le_mono_pos_l _ _ _ Hpos); rewrite truediv_mult by done.
  - rewrite Qcmult_0_r. apply (Qc_of_Z_le 0). lia.
  - rewrite Qcmult_1_r. apply Qc_of_Z_le. lia.
Qed.

Lemma Qcmin_le_1 (x : Qc) : (x ≤ 1)%Qc → Qcmin x 1 = x.
Proof. intros H. unfold Qcmin. by rewrite decide_True. Qed.

(** ** classify_job *)

Lemma lower_set_nil (l : list string) : lower_set l = ∅ ↔ l = [].
Proof.
  unfold lower_set. split; [|by intros ->].
  destruct l as [|x l]; [done|]. rewrite fmap_cons, list_to_set_cons.
  set_solver.
Qed.

Lemma lower_set_size_pos (l : list string) :
  l ≠ [] → (0 < size (lower_set l))%nat.
Proof.
  intros Hl. apply Nat.neq_0_lt_0. intros H%size_empty_inv.
  apply leibniz_equiv in H. by apply lower_set_nil in H.
Qed.

Lemma coverage_range (R J : gset string) :
  (0 < size J)%nat → (0 ≤ coverage R J)%Qc ∧ (coverage R J ≤ 1)%Qc.
Proof.
  intros HJ. apply truediv_range; [|done].
  apply subseteq_size, intersection_subseteq_r.
Qed.

Lemma classify_job_empty (job : dict) (resume_skills : list string) :
  get job "requirements" (VList []) = VList [] →
  JobRelevanceClassifier.classify_job job resume_skills = Ok Qc_half.
Proof. intros H. unfold JobRelevanceClassifier.classify_job. by rewrite H. Qed.

Lemma classify_job_list (job : dict) (reqs resume_skills : list string) :
  get job "requirements" (VList []) = VList reqs → reqs ≠ [] →
  JobRelevanceClassifier.classify_job job resume_skills
  = Ok (coverage (lower_set resume_skills) (lower_set reqs)).
Proof.
  intros H Hne. unfold JobRelevanceClassifier.classify_job. rewrite H.
  simpl. rewrite bool_decide_eq_false_2 by done. simpl.
  pose proof (lower_set_size_pos reqs Hne) as Hpos.
  rewrite decide_True by done.
  f_equal. apply Qcmin_le_1, coverage_range, Hpos.
Qed.

(** C1, as stated, fails: with requirements [["python"]] and resume skills
    [["python"; "java"]] the score is 1, the Jaccard overlap is 1/2. *)
Lemma classify_job_not_jaccard :
  let job : dict := {[ "requirements" := VList ["python"] ]} in
  let resume_skills := ["python"; "java"] in
  JobRelevanceClassifier.classify_job job resume_skills = Ok 1%Qc ∧
  jaccard (lower_set resume_skills) (lower_set ["python"]) = Qc_half ∧
  JobRelevanceClassifier.classify_job job resume_skills
  ≠ Ok (jaccard (lower_set resume_skills) (lower_set ["python"])).
Proof.
  assert (H1 : JobRelevanceClassifier.classify_job
                 {[ "requirements" := VList ["python"] ]} ["python"; "java"]
               = Ok 1%Qc) by (vm_compute; reflexivity).
  assert (H2 : jaccard (lower_set ["python"; "java"]) (lower_set ["python"])
               = Qc_half) by (vm_compute; reflexivity).
  simpl. split_and!; [done..|].
  rewrite H1, H2. intros [=].
Qed.

(** C1 (amended): for a job whose requirements list is non-empty,
    [classify_job] returns the share of the lowercased requirement set
    that the lowercased resume-skill set covers, |R ∩ J| / |J|, a value in
    [0, 1]. *)
Theorem classify_job_coverage
    (job : dict) (reqs resume_skills : list string) :
  job !! "requirements" = Some (VList reqs) → reqs ≠ [] →
  let R := lower_set resume_skills in
  let J := lower_set reqs in
  JobRelevanceClassifier.classify_job job resume_skills
  = Ok (truediv (size (R ∩ J)) (size J)) ∧
  (0 ≤ truediv (size (R ∩ J)) (size J))%Qc ∧
  (truediv (size (R ∩ J)) (size J) ≤ 1)%Qc.
Proof.
  intros Hreq Hne R J. split.
  - apply classify_job_list; [|done]. unfold get. by rewrite Hreq.
  - apply coverage_range, lower_set_size_pos, Hne.
Qed.

Lemma classify_job_coverage_witness :
  JobRelevanceClassifier.classify_job
    {[ "requirements" := VList ["Python"; "Docker"; "AWS"] ]} ["python"; "Go"]
  = Ok (truediv
          (size (lower_set ["python"; "Go"] ∩ lower_set ["Python"; "Docker"; "AWS"]))
          (size (lower_set ["Python"; "Docker"; "AWS"]))).
Proof.
  apply (classify_job_coverage
           {[ "requirements" := VList ["Python"; "Docker"; "AWS"] ]}
           ["Python"; "Docker"; "AWS"] ["python"; "Go"]).
  - reflexivity.
  - discriminate.
Defined.

(** C7: [classify_job] depends on its arguments only through the two
    lowercased sets: resume-skill lists with the same lowercased set and
    jobs whose requirements lists have the same lowercased set get the
    same score. *)
Theorem classify_job_set_invariant
    (job1 job2 : dict) (reqs1 reqs2 resume1 resume2 : list string) :
  get job1 "requirements" (VList []) = VList reqs1 →
  get job2 "requirements" (VList []) = VList reqs2 →
  lower_set resume1 = lower_set resume2 →
  lower_set reqs1 = lower_set reqs2 →
  ∃ score,
    JobRelevanceClassifier.classify_job job1 resume1 = Ok score ∧
    JobRelevanceClassifier.classify_job job2 resume2 = Ok score.
Proof.
  intros H1 H2 HR HJ.
  destruct (decide (reqs1 = [])) as [->|Hne1].
  - assert (reqs2 = []) as -> by (by apply lower_set_nil; rewrite <- HJ).
    exists Qc_half. split; by apply classify_job_empty.
  - assert (reqs2 ≠ []) as Hne2.
    { intros ->. apply Hne1, lower_set_nil. by rewrite HJ. }
    exists (coverage (lower_set resume1) (lower_set reqs1)). split.
    + by apply classify_job_list.
    + rewrite HR, HJ. by apply classify_job_list.
Qed.

Lemma classify_job_set_invariant_witness :
  ∃ score,
    JobRelevanceClassifier.classify_job
      {[ "requirements" := VList ["AWS"; "Python"; "aws"] ]}
      ["PYTHON"; "Go"; "go"] = Ok score ∧
    JobRelevanceClassifier.classify_job
      {[ "requirements" := VList ["python"; "Aws"] ]}
      ["GO"; "python"] = Ok score.
Proof.
  apply (classify_job_set_invariant
           {[ "requirements" := VList ["AWS"; "Python"; "aws"] ]}
           {[ "requirements" := VList ["python"; "Aws"] ]}
           ["AWS"; "Python"; "aws"] ["python"; "Aws"]
           ["PYTHON"; "Go"; "go"] ["GO"; "python"]).
  - reflexivity.
  - reflexivity.
  - vm_compute; reflexivity.
  - vm_compute; reflexivity.
Defined.

(** C9: when ['requirements'] is missing or maps to an empty list,
    [classify_job] returns 0.5 whatever the resume skills are, while
    [calculate_skill_match] returns 1.0 for an empty job-skills list: the
    two differ. *)
Theorem empty_requirements_disagree
    (job : dict) (resume_skills : list string) :
  job !! "requirements" = None ∨ job !! "requirements" = Some (VList []) →
  JobRelevanceClassifier.classify_job job resume_skills = Ok Qc_half ∧
  UtilityFunctions.calculate_skill_match resume_skills [] = 1%Qc ∧
  Qc_half ≠ 1%Qc.
Proof.
  intros H. split_and!.
  - apply classify_job_empty. unfold get. by destruct H as [-> | ->].
  - reflexivity.
  - intros [=].
Qed.

Lemma empty_requirements_disagree_witness :
  JobRelevanceClassifier.classify_job {[ "title" := VStr "Job" ]} ["Python"]
  = Ok Qc_half ∧
  UtilityFunctions.calculate_skill_match ["Python"] [] = 1%Qc ∧
  Qc_half ≠ 1%Qc.
Proof.
  apply (empty_requirements_disagree {[ "title" := VStr "Job" ]} ["Python"]).
  left. reflexivity.
Defined.

(** ** customize_for_job *)

Lemma filter_ext_elem {A} (P1 P2 : A → Prop)
    `{!∀ x, Decision (P1 x), !∀ x, Decision (P2 x)} (l : list A) :
  (∀ x, x ∈ l → P1 x ↔ P2 x) → filter P1 l = filter P2 l.
Proof.
  induction l as [|a l IH]; intros Hext; [done|].
  rewrite !filter_cons. rewrite IH by (intros; apply Hext; by right).
  assert (P1 a ↔ P2 a) as Ha by (apply Hext; by left).
  destruct (decide (P1 a)), (decide (P2 a)); tauto || done.
Qed.

(** The skills of the resume that match a requirement, case folded. *)
Lemma get_matching_skills_ok (resume_skills js : list string) (v : value) :
  iter v = Ok js →
  ResumeCustomizer._get_matching_skills resume_skills v
  = Ok (filter (λ s, Str.lower s ∈ lower_set js) resume_skills).
Proof.
  intros Hv. unfold ResumeCustomizer._get_matching_skills. rewrite Hv. simpl.
  f_equal. apply filter_ext_elem. intros x Hx.
  rewrite elem_of_intersection. split; [by intros [_ ?]|]. intros Hj.
  split; [|done]. unfold lower_set. apply elem_of_list_to_set.
  by apply list_elem_of_fmap_2.
Qed.

Lemma prioritized_skills_split (P : string → Prop) `{!∀ x, Decision (P x)}
    (l : list string) :
  filter (λ s, s ∉ filter P l) l = filter (λ s, ¬ P s) l.
Proof.
  apply filter_ext_elem. intros x Hx. rewrite list_elem_of_filter. tauto.
Qed.

Lemma iter_len (v : value) (js : list string) :
  iter v = Ok js → ∃ n, len v = Ok n.
Proof. destruct v; intros [=]; eauto. Qed.

Lemma customize_for_job_ok {Model Vocab} (self : ResumeCustomizer.t Model Vocab)
    (job : dict) (js : list string) :
  iter (get job "requirements" (VList [])) = Ok js →
  let sr := ResumeCustomizer.sample_resume self in
  let matches s := Str.lower s ∈ lower_set js in
  let matching := filter matches (ResumeCustomizer.skills sr) in
  ∃ r, ResumeCustomizer.customize_for_job self job = Ok r ∧
    ResumeCustomizer.skills r
    = take 10 (matching ++ filter (λ s, ¬ matches s)
                             (ResumeCustomizer.skills sr))%list ∧
    ResumeCustomizer.summary r
    = ResumeCustomizer._generate_custom_summary sr
        (get job "title" (VStr EmptyString))
        (get job "company" (VStr EmptyString)) matching.
Proof.
  intros Hv sr matches matching. unfold ResumeCustomizer.customize_for_job.
  rewrite (get_matching_skills_ok _ js) by done. simpl.
  unfold ResumeCustomizer._select_relevant_experience. rewrite Hv. simpl.
  destruct (iter_len _ _ Hv) as [n Hn]. rewrite Hn.
  destruct (truthy _); simpl; eexists; (split; [reflexivity|]); simpl;
    by rewrite prioritized_skills_split.
Qed.

(** C4: the ['skills'] of the customized resume are a permutation of the
    nine sample-resume skills: those matching a requirement of the job
    case-insensitively, in resume order, then the others, in resume
    order; the cut at 10 entries removes nothing. *)
Theorem customize_skills_reordered {Model Vocab} (m : Model) (v : Vocab)
    (job : dict) (js : list string) :
  iter (get job "requirements" (VList [])) = Ok js →
  let matches s := Str.lower s ∈ lower_set js in
  ∃ r, ResumeCustomizer.customize_for_job (ResumeCustomizer.__init__ m v) job
       = Ok r ∧
    ResumeCustomizer.skills r
    = (filter matches ResumeCustomizer.sample_skills
       ++ filter (λ s, ¬ matches s) ResumeCustomizer.sample_skills)%list ∧
    ResumeCustomizer.skills r ≡ₚ ResumeCustomizer.sample_skills ∧
    (length (ResumeCustomizer.skills r) ≤ 10)%nat.
Proof.
  intros Hv matches.
  destruct (customize_for_job_ok (ResumeCustomizer.__init__ m v) job js Hv)
    as (r & Hr & Hskills & _).
  change (ResumeCustomizer.skills
            (ResumeCustomizer.sample_resume (ResumeCustomizer.__init__ m v)))
    with ResumeCustomizer.sample_skills in Hskills.
  pose proof (filter_app_complement matches ResumeCustomizer.sample_skills)
    as Hperm.
  pose proof (Permutation_length Hperm) as Hlen.
  change (length ResumeCustomizer.sample_skills) with 9%nat in Hlen.
  rewrite take_ge in Hskills by (subst matches; simpl in *; lia).
  exists r. rewrite Hskills. split_and!; [done..|].
  subst matches; simpl in *; lia.
Qed.

Lemma customize_skills_reordered_witness :
  ∃ r, ResumeCustomizer.customize_for_job (ResumeCustomizer.__init__ tt tt)
         {[ "requirements" := VList ["aws"; "GIT"; "Rust"] ]} = Ok r ∧
    ResumeCustomizer.skills r
    = ["AWS"; "Git"; "Python"; "Java"; "Docker"; "Kubernetes";
       "Machine Learning"; "PostgreSQL"; "REST API"].
Proof.
  destruct (customize_skills_reordered tt tt
              {[ "requirements" := VList ["aws"; "GIT"; "Rust"] ]}
              ["aws"; "GIT"; "Rust"]) as (r & Hr & Hskills & _);
    [reflexivity|].
  exists r. split; [exact Hr|]. rewrite Hskills. vm_compute. reflexivity.
Defined.

(** C5: the ['summary'] of the customized resume is the fixed template
    filled with the experience of the sample resume (6) and the first
    five matching skills joined by a comma and a space. *)
Theorem customize_summary_template {Model Vocab} (m : Model) (v : Vocab)
    (job : dict) (js : list string) :
  iter (get job "requirements" (VList [])) = Ok js →
  let self := ResumeCustomizer.__init__ m v in
  let E := ResumeCustomizer.experience (ResumeCustomizer.sample_resume self) in
  let matching :=
    filter (λ s, Str.lower s ∈ lower_set js) ResumeCustomizer.sample_skills in
  let S := Str.join ", " (take 5 matching) in
  E = 6 ∧
  ∃ r, ResumeCustomizer.customize_for_job self job = Ok r ∧
    ResumeCustomizer.summary r
    = "Experienced software engineer with " ++ Str.of_int E
      ++ "+ years of expertise specializing in " ++ S
      ++ ". Proven track record in building scalable systems and delivering high-impact solutions. Passionate about leveraging technology to solve complex problems.".
Proof.
  intros Hv self E matching S. split; [reflexivity|].
  destruct (customize_for_job_ok self job js Hv) as (r & Hr & _ & Hsum).
  exists r. split; [done|]. rewrite Hsum. reflexivity.
Qed.

Lemma customize_summary_template_witness :
  ∃ r, ResumeCustomizer.customize_for_job (ResumeCustomizer.__init__ tt tt)
         {[ "requirements" := VList ["aws"; "GIT"; "Rust"] ]} = Ok r ∧
    ResumeCustomizer.summary r
    = "Experienced software engineer with 6+ years of expertise specializing in AWS, Git. Proven track record in building scalable systems and delivering high-impact solutions. Passionate about leveraging technology to solve complex problems.".
Proof.
  destruct (customize_summary_template tt tt
              {[ "requirements" := VList ["aws"; "GIT"; "Rust"] ]}
              ["aws"; "GIT"; "Rust"]) as (_ & r & Hr & Hsum);
    [reflexivity|].
  exists r. split; [exact Hr|]. rewrite Hsum. vm_compute. reflexivity.
Defined.

Example cover_letter_ex :
  let letter :=
    ResumeCustomizer.generate_cover_letter (ResumeCustomizer.__init__ tt tt)
      {[ "title" := VStr "Data Engineer"; "company" := VStr "Data Corp" ]}
      (ResumeCustomizer.sample_resume (ResumeCustomizer.__init__ tt tt)) in
  String.prefix "Dear Hiring Manager," letter = true ∧
  Str.contains "the Data Engineer position at Data Corp. " letter = true ∧
  Str.contains "With 6 years of professional experience" letter = true ∧
  Str.contains ("Best regards," ++ Str.nl ++ "Alex Chen") letter = true ∧
  Str.strip letter = letter.
Proof. vm_compute. done. Qed.

(** The three entry points read nothing of the customizer but its sample
    resume. *)
Lemma customizer_reads_sample_resume {M1 V1 M2 V2}
    (c1 : ResumeCustomizer.t M1 V1) (c2 : ResumeCustomizer.t M2 V2) :
  ResumeCustomizer.sample_resume c1 = ResumeCustomizer.sample_resume c2 →
  (∀ job, ResumeCustomizer.customize_for_job c1 job
          = ResumeCustomizer.customize_for_job c2 job) ∧
  (∀ job resume, ResumeCustomizer.generate_cover_letter c1 job resume
                 = ResumeCustomizer.generate_cover_letter c2 job resume) ∧
  (∀ jobs, ResumeCustomizer.batch_customize c1 jobs
           = ResumeCustomizer.batch_customize c2 jobs).
Proof.
  intros Heq.
  assert (Hc : ∀ job, ResumeCustomizer.customize_for_job c1 job
                      = ResumeCustomizer.customize_for_job c2 job).
  { intros job. unfold ResumeCustomizer.customize_for_job. by rewrite Heq. }
  split_and!; [done|done|].
  intros jobs. unfold ResumeCustomizer.batch_customize.
  induction jobs as [|j jobs IH]; [done|]. simpl. by rewrite Hc, IH.
Qed.

(** C3: the model and the vocabulary a customizer is built from do not
    influence [customize_for_job], [generate_cover_letter] and
    [batch_customize]: two customizers built from any two pairs return the
    same results on every input. *)
Theorem customizer_ignores_model {M1 V1 M2 V2 : Type}
    (m1 : M1) (v1 : V1) (m2 : M2) (v2 : V2) :
  let c1 := ResumeCustomizer.__init__ m1 v1 in
  let c2 := ResumeCustomizer.__init__ m2 v2 in
  (∀ job, ResumeCustomizer.customize_for_job c1 job
          = ResumeCustomizer.customize_for_job c2 job) ∧
  (∀ job resume, ResumeCustomizer.generate_cover_letter c1 job resume
                 = ResumeCustomizer.generate_cover_letter c2 job resume) ∧
  (∀ jobs, ResumeCustomizer.batch_customize c1 jobs
           = ResumeCustomizer.batch_customize c2 jobs).
Proof. intros c1 c2. by apply customizer_reads_sample_resume. Qed.

(** ** The transformer block *)

(** C6: the forward pass of the block is the post-norm residual pattern:
    [norm2 (y + feed_forward y)] with
    [y = norm1 (x + dropout (attention x x x))]. *)
Theorem forward_post_norm {Tensor Mask : Type} `{!TensorAdd Tensor}
    (self : MAYINITransformerBlock.t Tensor Mask) (x : Tensor)
    (mask : option Mask) :
  MAYINITransformerBlock.forward self x mask
  = MAYINITransformerBlock.post_norm self x mask.
Proof.
  unfold MAYINITransformerBlock.forward, MAYINITransformerBlock.post_norm.
  by destruct (MAYINITransformerBlock.attention self x x x mask).
Qed.

(** The two patterns are not the same function: on integers, with
    doubling for the two norms and the identity for the other layers, the
    forward pass maps 1 to 16 and the pre-norm pattern maps it to 9. *)
Lemma forward_not_pre_norm :
  let block : MAYINITransformerBlock.t Z unit := {|
    MAYINITransformerBlock.attention := λ q _ _ _, (q, 0);
    MAYINITransformerBlock.feed_forward := λ t, t;
    MAYINITransformerBlock.norm1 := λ t, 2 * t;
    MAYINITransformerBlock.norm2 := λ t, 2 * t;
    MAYINITransformerBlock.dropout := λ t, t |} in
  MAYINITransformerBlock.forward (tensor_ops := Z.add) block 1 None = 16 ∧
  MAYINITransformerBlock.pre_norm (tensor_ops := Z.add) block 1 None = 9.
Proof. split; reflexivity. Qed.

(** ** The object store *)

Lemma alloc_fresh (h : gmap loc obj) (o : obj) : (Store.alloc h o).1 ∉ dom h.
Proof. apply is_fresh. Qed.

Lemma alloc_subseteq (h : gmap loc obj) (o : obj) : h ⊆ (Store.alloc h o).2.
Proof. apply insert_subseteq, not_elem_of_dom, is_fresh. Qed.

Lemma alloc_lookup (h : gmap loc obj) (o : obj) :
  (Store.alloc h o).2 !! (Store.alloc h o).1 = Some o.
Proof. apply lookup_insert_eq. Qed.

Lemma resolve_mono (h h' : gmap loc obj) (hv : hval) (v : value) :
  h ⊆ h' → Store.resolve h hv = Some v → Store.resolve h' hv = Some v.
Proof.
  intros Hsub. destruct hv as [| |l]; simpl; try done.
  destruct (h !! l) as [o|] eqn:Hl; [|done].
  by rewrite (lookup_weaken _ _ _ _ Hl Hsub).
Qed.

Lemma snapshot_items_mono (h h' : gmap loc obj) (d : gmap string hval) :
  h ⊆ h' → map_Forall (λ _ hv, is_Some (Store.resolve h hv)) d →
  omap (Store.resolve h') d = omap (Store.resolve h) d.
Proof.
  intros Hsub Hall. apply map_eq. intros k. rewrite !lookup_omap.
  destruct (d !! k) as [hv|] eqn:Hk; [|done]. simpl.
  destruct (Hall k hv Hk) as [v Hv]. rewrite Hv. by eapply resolve_mono.
Qed.

Lemma job_ok_mono (h h' : gmap loc obj) (j : loc) :
  h ⊆ h' → job_ok h j →
  job_ok h' j ∧ Store.snapshot h' j = Store.snapshot h j.
Proof.
  intros Hsub Hok. unfold job_ok, Store.snapshot in *.
  destruct (h !! j) as [[d|]|] eqn:Hj; try done.
  rewrite (lookup_weaken _ _ _ _ Hj Hsub).
  destruct Hok as [Hall Hty].
  rewrite (snapshot_items_mono h h' d Hsub Hall). split; [|done].
  split; [|done]. intros k hv Hk. destruct (Hall k hv Hk) as [v Hv].
  exists v. by eapply resolve_mono.
Qed.

Lemma job_ok_in_dom (h : gmap loc obj) (j : loc) : job_ok h j → j ∈ dom h.
Proof.
  unfold job_ok. intros H. apply elem_of_dom.
  by destruct (h !! j) as [o|].
Qed.

Lemma item_of_snapshot (h : gmap loc obj) (d : gmap string hval)
    (k : string) (v : value) :
  omap (Store.resolve h) d !! k = Some v → Store.item h d k = Ok v.
Proof.
  rewrite lookup_omap. unfold Store.item.
  destruct (d !! k) as [hv|]; [|done]. simpl. by intros ->.
Qed.

Lemma is_VStr_inv (o : option value) : is_VStr o → ∃ s, o = Some (VStr s).
Proof. destruct o as [[]|]; simpl; naive_solver. Qed.

Lemma is_VList_inv (o : option value) : is_VList o → ∃ l, o = Some (VList l).
Proof. destruct o as [[]|]; simpl; naive_solver. Qed.

Lemma setitem_subseteq (h0 h : gmap loc obj) (r : loc) (k : string) (v : hval) :
  r ∉ dom h0 → h0 ⊆ h → h0 ⊆ Store.setitem h r k v.
Proof.
  intros Hr Hsub. apply map_subseteq_spec. intros l o Hl.
  unfold Store.setitem. rewrite lookup_alter_ne.
  - by eapply lookup_weaken.
  - intros ->. apply Hr, elem_of_dom. eauto.
Qed.

Lemma catalog_view_mono (s : JobScraper.t) (h' : gmap loc obj) :
  catalog_ok s → JobScraper.heap s ⊆ h' →
  catalog_view {| JobScraper.heap := h';
                  JobScraper.sample_jobs := JobScraper.sample_jobs s |}
  = catalog_view s.
Proof.
  unfold catalog_ok, catalog_view. simpl. intros Hok Hsub.
  induction Hok as [|j js Hj _ IH]; [done|].
  rewrite !fmap_cons, IH. f_equal. by apply job_ok_mono.
Qed.

(** ** The queries of the scraper *)

Local Opaque Store.alloc.

Lemma job_ok_deref (h : gmap loc obj) (j : loc) :
  job_ok h j →
  ∃ d, h !! j = Some (ODict d) ∧ Store.deref_dict h j = Ok d ∧
    (∃ s, Store.item h d "id" = Ok (VStr s)) ∧
    (∃ s, Store.item h d "title" = Ok (VStr s)) ∧
    (∃ s, Store.item h d "description" = Ok (VStr s)) ∧
    (∃ s, Store.item h d "location" = Ok (VStr s)) ∧
    (∃ l, Store.item h d "requirements" = Ok (VList l)).
Proof.
  unfold job_ok, Store.deref_dict. intros Hok.
  destruct (h !! j) as [[d|]|]; try done. exists d.
  destruct Hok as (_ & H1 & H2 & H3 & H4 & H5).
  apply is_VStr_inv in H1 as [? ?], H2 as [? ?], H3 as [? ?], H4 as [? ?].
  apply is_VList_inv in H5 as [? ?].
  split_and!; eauto using item_of_snapshot.
Qed.

Lemma job_matches_total (kwl : list string) (location : string)
    (h : gmap loc obj) (j : loc) (d : gmap string hval) :
  job_ok h j → h !! j = Some (ODict d) →
  ∃ b, JobScraper.job_matches kwl location h d = Ok b.
Proof.
  intros Hok Hj. destruct (job_ok_deref h j Hok) as (d' & Hj' & _ & _ & Ht).
  assert (d' = d) as -> by congruence.
  destruct Ht as ([t Ht] & [ds Hd] & [lo Hlo] & [rq Hrq]).
  unfold JobScraper.job_matches, JobScraper.job_text.
  rewrite Ht, Hd, Hrq. simpl.
  destruct (_ && _); [eauto|].
  destruct (negb _); [|eauto]. rewrite Hlo. simpl. eauto.
Qed.

Lemma is_copy_weaken (h0 h1 h' : gmap loc obj) (j c : loc) :
  h0 ⊆ h1 → is_copy h1 h' j c → is_copy h0 h' j c.
Proof.
  intros Hsub [Hc Hd]. split; [|done].
  intros Hin. apply Hc. by eapply subseteq_dom.
Qed.

Lemma is_copy_alloc (h h' : gmap loc obj) (j : loc) (d : gmap string hval) :
  h !! j = Some (ODict d) → (Store.alloc h (ODict d)).2 ⊆ h' →
  is_copy h h' j (Store.alloc h (ODict d)).1.
Proof.
  intros Hj Hsub. split; [apply alloc_fresh|]. exists d. split.
  - eapply lookup_weaken; [|exact Hsub].
    eapply lookup_weaken; [exact Hj|apply alloc_subseteq].
  - eapply lookup_weaken; [apply alloc_lookup|exact Hsub].
Qed.

Lemma copies_fresh (h h' : gmap loc obj) (js cs : list loc) (c : loc) :
  Forall2 (is_copy h h') js cs → c ∈ dom h → c ∉ cs.
Proof.
  intros Hall Hc Hin. apply list_elem_of_lookup in Hin as [i Hi].
  destruct (Forall2_lookup_r _ _ _ _ _ Hall Hi) as (j & _ & [Hfresh _]).
  done.
Qed.

Lemma search_loop_spec (kwl : list string) (location : string)
    (jobs : list loc) :
  ∀ (h : gmap loc obj) (matched : list loc),
  Forall (job_ok h) jobs →
  ∃ js cs h',
    JobScraper.search_loop kwl location jobs h matched
    = Ok ((matched ++ cs)%list, h') ∧
    h ⊆ h' ∧ js `sublist_of` jobs ∧
    Forall2 (is_copy h h') js cs ∧ NoDup cs.
Proof.
  induction jobs as [|job jobs IH]; intros h matched Hok.
  { exists [], [], h. simpl. rewrite app_nil_r.
    split_and!; [done..|constructor|constructor]. }
  apply Forall_cons in Hok as [Hjob Hrest]. simpl.
  destruct (job_ok_deref h job Hjob) as (d & Hj & -> & _). simpl.
  destruct (job_matches_total kwl location h job d Hjob Hj) as [b ->]. simpl.
  destruct b.
  - set (a := Store.alloc h (ODict d)).
    destruct (IH a.2 (matched ++ [a.1])%list)
      as (js & cs & h' & -> & Hsub & Hjs & Hall & Hnd).
    { eapply Forall_impl; [exact Hrest|]. intros j Hjok.
      exact (proj1 (job_ok_mono h a.2 j (alloc_subseteq _ _) Hjok)). }
    exists (job :: js), (a.1 :: cs), h'. rewrite <- app_assoc. simpl.
    split_and!; [done| |by constructor| |].
    + etrans; [apply alloc_subseteq|exact Hsub].
    + constructor; [by apply is_copy_alloc|].
      eapply Forall2_impl; [exact Hall|]. intros ??.
      apply is_copy_weaken, alloc_subseteq.
    + constructor; [|done]. eapply copies_fresh; [exact Hall|].
      apply elem_of_dom. exists (ODict d). apply alloc_lookup.
  - destruct (IH h matched Hrest) as (js & cs & h' & -> & Hsub & Hjs & Hall & Hnd).
    exists js, cs, h'. split_and!; [done..|by constructor|done|done].
Qed.

Lemma by_id_loop_spec (job_id : string) (jobs : list loc) (h : gmap loc obj) :
  Forall (job_ok h) jobs →
  ∃ r h',
    JobScraper.by_id_loop job_id jobs h = Ok (r, h') ∧ h ⊆ h' ∧
    match r with
    | Some c => ∃ j, j ∈ jobs ∧ is_copy h h' j c
    | None => h' = h
    end.
Proof.
  induction 1 as [|job jobs Hjob Hrest IH]; [by exists None, h|]. simpl.
  destruct (job_ok_deref h job Hjob) as (d & Hj & -> & [s Hid] & _). simpl.
  rewrite Hid. simpl. case_bool_decide.
  - exists (Some (Store.alloc h (ODict d)).1), (Store.alloc h (ODict d)).2.
    split_and!; [done|apply alloc_subseteq|].
    exists job. split; [by left|]. by apply is_copy_alloc.
  - destruct IH as (r & h' & -> & Hsub & Hr). exists r, h'.
    split_and!; [done..|]. destruct r as [c|]; [|done].
    destruct Hr as (j & Hin & Hc). exists j. split; [by right|done].
Qed.

Lemma copy_all_spec (jobs : list loc) :
  ∀ h : gmap loc obj,
  Forall (job_ok h) jobs →
  ∃ cs h',
    JobScraper.copy_all jobs h = Ok (cs, h') ∧ h ⊆ h' ∧
    Forall2 (is_copy h h') jobs cs ∧ NoDup cs.
Proof.
  induction jobs as [|job jobs IH]; intros h Hok.
  { exists [], h. split_and!; [done..|constructor|constructor]. }
  apply Forall_cons in Hok as [Hjob Hrest]. simpl.
  destruct (job_ok_deref h job Hjob) as (d & Hj & _). unfold Store.copy.
  rewrite Hj. simpl. set (a := Store.alloc h (ODict d)).
  destruct (IH a.2) as (cs & h' & -> & Hsub & Hall & Hnd).
  { eapply Forall_impl; [exact Hrest|]. intros j Hjok.
    exact (proj1 (job_ok_mono h a.2 j (alloc_subseteq _ _) Hjok)). }
  exists (a.1 :: cs), h'. simpl. split_and!; [done| | |].
  - etrans; [apply alloc_subseteq|exact Hsub].
  - constructor; [by apply is_copy_alloc|].
    eapply Forall2_impl; [exact Hall|]. intros ??.
    apply is_copy_weaken, alloc_subseteq.
  - constructor; [|done]. eapply copies_fresh; [exact Hall|].
    apply elem_of_dom. exists (ODict d). apply alloc_lookup.
Qed.

Lemma slice_to_take {A} (limit : Z) (l : list A) :
  ∃ n, slice_to limit l = take n l ∧ (0 ≤ limit → n = Z.to_nat limit).
Proof.
  unfold slice_to. destruct (0 <=? limit) eqn:Hl.
  - by exists (Z.to_nat limit).
  - exists (length l - Z.to_nat (- limit))%nat. split; [done|lia].
Qed.

Lemma search_jobs_spec (s : JobScraper.t) (keywords location : string)
    (limit : Z) :
  catalog_ok s →
  ∃ n js cs h',
    JobScraper.search_jobs s keywords location limit
    = Ok (take n cs, {| JobScraper.heap := h';
                        JobScraper.sample_jobs := JobScraper.sample_jobs s |}) ∧
    (0 ≤ limit → n = Z.to_nat limit) ∧
    JobScraper.heap s ⊆ h' ∧ js `sublist_of` JobScraper.sample_jobs s ∧
    Forall2 (is_copy (JobScraper.heap s) h') js cs ∧ NoDup cs.
Proof.
  intros Hok. unfold JobScraper.search_jobs.
  destruct (search_loop_spec
              (if truthy (VStr keywords)
               then Str.split (Str.lower keywords) else [])
              location (JobScraper.sample_jobs s) (JobScraper.heap s) [] Hok)
    as (js & cs & h' & -> & Hsub & Hjs & Hall & Hnd). simpl.
  destruct (slice_to_take limit cs) as (n & -> & Hn).
  by exists n, js, cs, h'.
Qed.

Lemma copies_snapshot (h h' : gmap loc obj) (js cs : list loc) :
  h ⊆ h' → Forall (job_ok h) js → Forall2 (is_copy h h') js cs →
  Store.snapshot h' <$> cs = Store.snapshot h <$> js.
Proof.
  intros Hsub Hok Hall. induction Hall as [|j c js cs Hc _ IH]; [done|].
  apply Forall_cons in Hok as [Hj Hok]. rewrite !fmap_cons, IH by done.
  f_equal. rewrite <- (proj2 (job_ok_mono h h' j Hsub Hj)).
  destruct Hc as (_ & d & Hd1 & Hd2). unfold Store.snapshot.
  by rewrite Hd1, Hd2.
Qed.

Lemma copies_of_catalog (h h' : gmap loc obj) (jobs js cs : list loc) :
  js `sublist_of` jobs → Forall2 (is_copy h h') js cs →
  Forall (λ c, ∃ j, j ∈ jobs ∧ is_copy h h' j c) cs.
Proof.
  intros Hjs Hall. apply Forall_forall. intros c Hc.
  apply list_elem_of_lookup in Hc as [i Hi].
  destruct (Forall2_lookup_r _ _ _ _ _ Hall Hi) as (j & Hj & Hcopy).
  exists j. split; [|done]. eapply elem_of_sublist; [|exact Hjs].
  apply list_elem_of_lookup. eauto.
Qed.

Lemma query_frame_intro (s : JobScraper.t) (h' : gmap loc obj)
    (rs : list loc) :
  catalog_ok s → JobScraper.heap s ⊆ h' → NoDup rs →
  Forall (λ c, ∃ j, j ∈ JobScraper.sample_jobs s ∧
                    is_copy (JobScraper.heap s) h' j c) rs →
  query_frame s {| JobScraper.heap := h';
                   JobScraper.sample_jobs := JobScraper.sample_jobs s |} rs.
Proof.
  intros Hok Hsub Hnd Hrs. unfold query_frame. simpl.
  split_and!; [done|done|by apply catalog_view_mono|done| |].
  - eapply Forall_impl; [exact Hrs|]. intros c (j & Hj & Hc).
    split; [|by exists j]. intros Hin. destruct Hc as [Hfresh _].
    apply Hfresh, job_ok_in_dom.
    unfold catalog_ok in Hok. rewrite Forall_forall in Hok. by apply Hok.
  - intros r k v Hr. rewrite Forall_forall in Hrs.
    destruct (Hrs r Hr) as (j & _ & Hfresh & _).
    apply (catalog_view_mono s (Store.setitem h' r k v) Hok).
    by apply setitem_subseteq.
Qed.

(** ** The scraper that [__init__] builds *)

Lemma store_value_spec (h : gmap loc obj) (v : value) :
  h ⊆ (Store.store_value h v).2 ∧
  Store.resolve (Store.store_value h v).2 (Store.store_value h v).1 = Some v.
Proof.
  destruct v as [s|z|xs]; simpl; [done..|].
  pose proof (alloc_subseteq h (OList xs)) as Hsub.
  pose proof (alloc_lookup h (OList xs)) as Hl.
  destruct (Store.alloc h (OList xs)) as [l h1]. simpl in *.
  by rewrite Hl.
Qed.

Lemma store_items_spec (items : list (string * value)) :
  ∀ (h : gmap loc obj) (d : gmap string hval),
  map_Forall (λ _ hv, is_Some (Store.resolve h hv)) d →
  h ⊆ (Store.store_items h d items).2 ∧
  map_Forall (λ _ hv, is_Some (Store.resolve (Store.store_items h d items).2 hv))
             (Store.store_items h d items).1 ∧
  omap (Store.resolve (Store.store_items h d items).2)
       (Store.store_items h d items).1
  = foldl (λ d kv, <[kv.1 := kv.2]> d) (omap (Store.resolve h) d) items.
Proof.
  induction items as [|[k v] items IH]; intros h d Hd; [done|]. simpl.
  destruct (store_value_spec h v) as [Hsub Hres].
  destruct (Store.store_value h v) as [hv h1]. simpl in *.
  assert (Hd1 : map_Forall (λ _ x, is_Some (Store.resolve h1 x)) (<[k:=hv]> d)).
  { apply map_Forall_insert_2; [eauto|]. intros i x Hx.
    destruct (Hd i x Hx) as [w Hw]. exists w. by eapply resolve_mono. }
  destruct (IH h1 (<[k:=hv]> d) Hd1) as (Hsub' & Hall & Heq).
  split_and!; [by etrans|done|]. rewrite Heq. f_equal.
  rewrite (omap_insert_Some _ _ _ _ _ Hres). f_equal.
  by apply snapshot_items_mono.
Qed.

Lemma store_dict_spec (h : gmap loc obj) (items : list (string * value)) :
  well_typed_job (dict_of_items items) →
  h ⊆ (Store.store_dict h items).2 ∧
  job_ok (Store.store_dict h items).2 (Store.store_dict h items).1 ∧
  Store.snapshot (Store.store_dict h items).2 (Store.store_dict h items).1
  = Some (dict_of_items items).
Proof.
  intros Hty. unfold Store.store_dict.
  destruct (store_items_spec items h ∅) as (Hsub & Hall & Heq); [done|].
  rewrite omap_empty in Heq. fold (dict_of_items items) in Heq.
  destruct (Store.store_items h ∅ items) as [d h1]. simpl in *.
  pose proof (alloc_subseteq h1 (ODict d)) as Hsub1.
  pose proof (alloc_lookup h1 (ODict d)) as Hl.
  destruct (Store.alloc h1 (ODict d)) as [l h2]. simpl in *.
  assert (Heq2 : omap (Store.resolve h2) d = dict_of_items items).
  { rewrite <- Heq. by apply snapshot_items_mono. }
  unfold job_ok, Store.snapshot. rewrite Hl, Heq2.
  split_and!; [by etrans| |apply Hty..|done].
  intros i x Hx. destruct (Hall i x Hx) as [w Hw]. exists w.
  by eapply resolve_mono.
Qed.

Lemma store_jobs_spec (jobs : list (list (string * value))) :
  ∀ h : gmap loc obj,
  Forall (λ items, well_typed_job (dict_of_items items)) jobs →
  h ⊆ (JobScraper.store_jobs h jobs).2 ∧
  Forall (job_ok (JobScraper.store_jobs h jobs).2)
         (JobScraper.store_jobs h jobs).1 ∧
  Store.snapshot (JobScraper.store_jobs h jobs).2
    <$> (JobScraper.store_jobs h jobs).1
  = Some <$> (dict_of_items <$> jobs).
Proof.
  induction jobs as [|items jobs IH]; intros h Hty.
  { split_and!; [done|constructor|done]. }
  apply Forall_cons in Hty as [Hitems Hrest]. simpl.
  destruct (store_dict_spec h items Hitems) as (Hsub & Hok & Hsnap).
  destruct (Store.store_dict h items) as [l h1]. simpl in *.
  destruct (IH h1 Hrest) as (Hsub' & Hoks & Hsnaps).
  destruct (JobScraper.store_jobs h1 jobs) as [ls h2]. simpl in *.
  destruct (job_ok_mono h1 h2 l Hsub' Hok) as [Hok2 Hsnap2].
  split_and!; [by etrans|by constructor|].
  rewrite Hsnap2, Hsnap. f_equal. exact Hsnaps.
Qed.

Lemma catalog_well_typed :
  Forall (λ items, well_typed_job (dict_of_items items)) JobScraper.catalog.
Proof. repeat constructor. Qed.

Lemma init_spec (h : gmap loc obj) :
  h ⊆ JobScraper.heap (JobScraper.__init__ h) ∧
  catalog_ok (JobScraper.__init__ h) ∧
  catalog_view (JobScraper.__init__ h) = Some <$> catalog_dicts.
Proof.
  unfold catalog_ok, catalog_view, JobScraper.__init__.
  pose proof (store_jobs_spec JobScraper.catalog h catalog_well_typed) as H.
  by destruct (JobScraper.store_jobs h JobScraper.catalog) as [ls h1].
Qed.

Lemma Forall_of_sublist {A} (P : A → Prop) (l k : list A) :
  l `sublist_of` k → Forall P k → Forall P l.
Proof.
  rewrite !Forall_forall. intros Hl Hk x Hx.
  by eapply Hk, elem_of_sublist.
Qed.

Lemma sublist_fmap_inv {A B} (f : A → B) (l : list B) (k : list A) :
  l `sublist_of` (f <$> k) → ∃ k', k' `sublist_of` k ∧ l = f <$> k'.
Proof.
  revert l. induction k as [|a k IH]; intros l Hl; simpl in Hl.
  - apply sublist_nil_r in Hl as ->. by exists [].
  - apply sublist_cons_r in Hl as [Hl|(l' & -> & Hl)].
    + destruct (IH l Hl) as (k' & Hk' & ->). exists k'.
      split; [by apply sublist_cons|done].
    + destruct (IH l' Hl) as (k' & Hk' & ->). exists (a :: k').
      split; [by apply sublist_skip|done].
Qed.

(** C10: a query on a scraper whose catalog entries are shaped as those of
    [__init__] returns, leaves the catalog list and every object of the
    store as they were, and gives back new dictionaries with the items of
    catalog entries; replacing a field of one of them leaves the catalog
    unchanged. *)
Theorem queries_leave_catalog (s : JobScraper.t)
    (keywords location job_id : string) (limit : Z) :
  catalog_ok s →
  (∃ rs s', JobScraper.search_jobs s keywords location limit = Ok (rs, s') ∧
            query_frame s s' rs) ∧
  (∃ r s', JobScraper.get_job_by_id s job_id = Ok (r, s') ∧
           query_frame s s' (option_list r)) ∧
  (∃ rs s', JobScraper.get_all_jobs s = Ok (rs, s') ∧ query_frame s s' rs).
Proof.
  intros Hok. split_and!.
  - destruct (search_jobs_spec s keywords location limit Hok)
      as (n & js & cs & h' & -> & _ & Hsub & Hjs & Hall & Hnd).
    eexists _, _. split; [reflexivity|].
    apply query_frame_intro; [done|done| |].
    + eapply sublist_NoDup; [exact Hnd|apply sublist_take].
    + apply Forall_take. by eapply copies_of_catalog.
  - unfold JobScraper.get_job_by_id.
    destruct (by_id_loop_spec job_id _ _ Hok) as (r & h' & -> & Hsub & Hr).
    simpl. eexists _, _. split; [reflexivity|].
    apply query_frame_intro; [done|done| |].
    + destruct r; simpl; [apply NoDup_singleton|constructor].
    + destruct r; simpl; [|constructor]. by repeat constructor.
  - unfold JobScraper.get_all_jobs.
    destruct (copy_all_spec _ _ Hok) as (cs & h' & -> & Hsub & Hall & Hnd).
    simpl. eexists _, _. split; [reflexivity|].
    apply query_frame_intro; [done..|]. by eapply copies_of_catalog.
Qed.

(** C2: on a newly built scraper, whatever the store it is built in,
    [search_jobs] with a non-negative limit returns copies of a
    subsequence, in catalog order and of length at most the limit, of the
    eight literal dictionaries of [__init__]. *)
Theorem search_jobs_catalog_subsequence (h0 : gmap loc obj)
    (keywords location : string) (limit : Z) :
  0 ≤ limit →
  ∃ rs s' ds,
    JobScraper.search_jobs (JobScraper.__init__ h0) keywords location limit
    = Ok (rs, s') ∧
    Store.snapshot (JobScraper.heap s') <$> rs = Some <$> ds ∧
    ds `sublist_of` catalog_dicts ∧
    Z.of_nat (length rs) ≤ limit ∧
    Forall (λ d, d ∈ catalog_dicts) ds ∧
    length catalog_dicts = 8%nat.
Proof.
  intros Hlimit. destruct (init_spec h0) as (_ & Hok & Hview).
  destruct (search_jobs_spec _ keywords location limit Hok)
    as (n & js & cs & h' & -> & Hn & Hsub & Hjs & Hall & Hnd).
  assert (Hsnap : Store.snapshot h' <$> take n cs
                  = Store.snapshot (JobScraper.heap (JobScraper.__init__ h0))
                    <$> take n js).
  { apply copies_snapshot; [done| |by apply Forall2_take].
    eapply Forall_of_sublist; [|exact Hok].
    etrans; [apply sublist_take|done]. }
  assert (Hds : (Store.snapshot (JobScraper.heap (JobScraper.__init__ h0))
                 <$> take n js) `sublist_of` (Some <$> catalog_dicts)).
  { rewrite <- Hview. unfold catalog_view.
    apply fmap_sublist. etrans; [apply sublist_take|done]. }
  apply sublist_fmap_inv in Hds as (ds & Hds & Heq).
  eexists _, _, ds. split; [reflexivity|]. simpl.
  split_and!; [by rewrite Hsnap| done | | |done].
  - rewrite length_take, (Hn Hlimit). lia.
  - apply Forall_forall. intros d Hd. by eapply elem_of_sublist.
Qed.

(** The copies are shallow: a copy is another dictionary than the catalog
    entry, and its ['requirements'] is the very list object of the
    entry. *)
Example copy_is_shallow :
  match JobScraper.get_all_jobs (JobScraper.__init__ ∅) with
  | Ok (c :: _, s') =>
      match JobScraper.sample_jobs s' with
      | j :: _ =>
          match JobScraper.heap s' !! c, JobScraper.heap s' !! j with
          | Some (ODict dc), Some (ODict dj) =>
              (bool_decide (c ≠ j),
               bool_decide (dc !! "requirements" = dj !! "requirements"),
               dc !! "requirements")
          | _, _ => (false, false, None)
          end
      | [] => (false, false, None)
      end
  | _ => (false, false, None)
  end = (true, true, Some (HRef 1%positive)).
Proof. vm_compute. reflexivity. Qed.

Lemma queries_leave_catalog_witness :
  (∃ rs s', JobScraper.search_jobs (JobScraper.__init__ ∅) "python" "Remote" 5
            = Ok (rs, s') ∧ query_frame (JobScraper.__init__ ∅) s' rs) ∧
  (∃ r s', JobScraper.get_job_by_id (JobScraper.__init__ ∅) "job_003"
           = Ok (r, s') ∧
           query_frame (JobScraper.__init__ ∅) s' (option_list r)) ∧
  (∃ rs s', JobScraper.get_all_jobs (JobScraper.__init__ ∅) = Ok (rs, s') ∧
            query_frame (JobScraper.__init__ ∅) s' rs).
Proof.
  apply (queries_leave_catalog (JobScraper.__init__ ∅)
           "python" "Remote" "job_003" 5).
  apply (bool_decide_unpack (catalog_ok (JobScraper.__init__ ∅))).
  vm_compute. exact I.
Defined.

Lemma search_jobs_catalog_subsequence_witness :
  ∃ rs s' ds,
    JobScraper.search_jobs (JobScraper.__init__ ∅) "python aws" "remote" 2
    = Ok (rs, s') ∧
    Store.snapshot (JobScraper.heap s') <$> rs = Some <$> ds ∧
    ds `sublist_of` catalog_dicts ∧
    Z.of_nat (length rs) ≤ 2 ∧
    Forall (λ d, d ∈ catalog_dicts) ds ∧
    length catalog_dicts = 8%nat.
Proof.
  apply (search_jobs_catalog_subsequence ∅ "python aws" "remote" 2). lia.
Defined.

(** ** Thresholds and ranking *)

Section SortDesc.
Context {A : Type} (key : A → Qc).

Lemma insert_desc_perm (x : A) (l : list A) :
  insert_desc key Qclt x l ≡ₚ x :: l.
Proof.
  induction l as [|y l IH]; [done|]. simpl. case_decide; [|done].
  rewrite IH. apply Permutation_swap.
Qed.

Lemma sort_desc_perm (l : list A) : sort_desc key Qclt l ≡ₚ l.
Proof.
  induction l as [|x l IH]; [done|]. simpl.
  by rewrite insert_desc_perm, IH.
Qed.

Lemma insert_desc_sorted (x : A) (l : list A) :
  non_increasing key l → non_increasing key (insert_desc key Qclt x l).
Proof.
  unfold non_increasing.
  induction 1 as [|y l Hl IH Hy]; simpl.
  { repeat constructor. }
  case_decide as Hlt.
  - constructor; [done|]. rewrite insert_desc_perm.
    constructor; [by apply Qclt_le_weak|done].
  - apply Qcle_ngt in Hlt.
    constructor; [by constructor|]. constructor; [done|].
    eapply Forall_impl; [exact Hy|]. intros z Hz. simpl in Hz.
    by etrans.
Qed.

Lemma sort_desc_sorted (l : list A) :
  non_increasing key (sort_desc key Qclt l).
Proof.
  induction l as [|x l IH]; [constructor|]. by apply insert_desc_sorted.
Qed.
End SortDesc.

Lemma classify_job_total (job : dict) (resume_skills : list string) :
  iterable_requirements job →
  ∃ score, JobRelevanceClassifier.classify_job job resume_skills = Ok score.
Proof.
  intros [js Hjs]. unfold JobRelevanceClassifier.classify_job.
  destruct (negb _); [eauto|]. rewrite Hjs. simpl. eauto.
Qed.

Lemma filter_loop_spec (resume_skills : list string) (threshold : Qc)
    (jobs : list dict) :
  ∀ relevant : list (dict * Qc),
  Forall iterable_requirements jobs →
  ∃ rel,
    JobRelevanceClassifier.filter_loop jobs resume_skills threshold relevant
    = Ok (relevant ++ rel)%list ∧
    Forall (λ p, (threshold ≤ p.2)%Qc) rel.
Proof.
  induction jobs as [|job jobs IH]; intros relevant Hok.
  { exists []. by rewrite app_nil_r. }
  apply Forall_cons in Hok as [Hjob Hrest]. simpl.
  destruct (classify_job_total job resume_skills Hjob) as [score ->]. simpl.
  case_decide as Hs.
  - destruct (IH (relevant ++ [(job, score)])%list Hrest) as (rel & -> & Hrel).
    exists ((job, score) :: rel). rewrite <- app_assoc.
    split; [done|by constructor].
  - destruct (IH relevant Hrest) as (rel & -> & Hrel). by exists rel.
Qed.

Lemma apply_loop_spec {Model Vocab} (cust : ResumeCustomizer.t Model Vocab)
    (h : gmap loc obj) (resume_skills : list string) (min_relevance : Qc)
    (jobs : list loc) :
  ∀ applications : list JobApplicationAgent.Application,
  Forall (λ j, ∃ d, Store.snapshot h j = Some d ∧ iterable_requirements d)
         jobs →
  ∃ apps,
    JobApplicationAgent.apply_loop cust h resume_skills min_relevance jobs
      applications = Ok (applications ++ apps)%list ∧
    Forall (λ a, (min_relevance ≤ JobApplicationAgent.relevance_score a)%Qc)
           apps.
Proof.
  induction jobs as [|j jobs IH]; intros applications Hok.
  { exists []. by rewrite app_nil_r. }
  apply Forall_cons in Hok as [(d & Hsn & Hd) Hrest].
  cbn [JobApplicationAgent.apply_loop]. rewrite Hsn. simpl.
  destruct (classify_job_total d resume_skills Hd) as [score ->]. simpl.
  case_decide as Hs.
  - destruct Hd as [js Hjs].
    destruct (customize_for_job_ok cust d js Hjs) as (r & -> & _). simpl.
    unfold JobRelevanceClassifier.get_match_details. rewrite Hjs. simpl.
    match goal with
    | |- context [JobApplicationAgent.apply_loop _ _ _ _ _ (_ ++ [?a])] =>
        destruct (IH (applications ++ [a])%list Hrest) as (apps & -> & Happs);
        exists (a :: apps)
    end.
    rewrite <- app_assoc. split; [done|by constructor].
  - destruct (IH applications Hrest) as (apps & -> & Happs). by exists apps.
Qed.

Lemma job_ok_iterable (h : gmap loc obj) (j : loc) :
  job_ok h j → ∃ d, Store.snapshot h j = Some d ∧ iterable_requirements d.
Proof.
  unfold job_ok, Store.snapshot. intros Hok.
  destruct (h !! j) as [[d|]|]; try done.
  destruct Hok as (_ & _ & _ & _ & _ & [l Hl]%is_VList_inv).
  eexists. split; [done|]. exists l. unfold get. by rewrite Hl.
Qed.

(** C8: every application [run_workflow] returns has a relevance score of
    at least [min_relevance], and the applications are in non-increasing
    order of score; the same holds of [filter_relevant_jobs] and its
    threshold. *)
Theorem relevant_and_ranked {Model Vocab}
    (self : JobApplicationAgent.t Model Vocab)
    (keywords location : string) (num_jobs : Z) (min_relevance : Qc)
    (jobs : list dict) (resume_skills : list string) (threshold : Qc) :
  catalog_ok (JobApplicationAgent.scraper self) →
  Forall iterable_requirements jobs →
  (∃ res self',
     JobApplicationAgent.run_workflow self keywords location num_jobs
       min_relevance = Ok (res, self') ∧
     Forall (λ a, (min_relevance ≤ JobApplicationAgent.relevance_score a)%Qc)
            (JobApplicationAgent.applications res) ∧
     non_increasing JobApplicationAgent.relevance_score
       (JobApplicationAgent.applications res)) ∧
  (∃ rel,
     JobRelevanceClassifier.filter_relevant_jobs jobs resume_skills threshold
     = Ok rel ∧
     Forall (λ p, (threshold ≤ p.2)%Qc) rel ∧
     non_increasing snd rel).
Proof.
  intros Hok Hjobs. split.
  - unfold JobApplicationAgent.run_workflow.
    destruct (search_jobs_spec _ keywords location num_jobs Hok)
      as (n & js & cs & h' & -> & _ & Hsub & Hjs & Hall & _). simpl.
    case_bool_decide as Hnil.
    { eexists _, _. split; [reflexivity|]. simpl. split; constructor. }
    assert (Hsnap : Forall (λ c, ∃ d, Store.snapshot h' c = Some d ∧
                                      iterable_requirements d) (take n cs)).
    { apply Forall_take, Forall_forall. intros c Hc.
      apply list_elem_of_lookup in Hc as [i Hi].
      destruct (Forall2_lookup_r _ _ _ _ _ Hall Hi) as (j & Hj & Hcopy).
      assert (Hjok : job_ok (JobScraper.heap (JobApplicationAgent.scraper self)) j).
      { unfold catalog_ok in Hok. rewrite Forall_forall in Hok.
        eapply Hok, elem_of_sublist; [|exact Hjs].
        apply list_elem_of_lookup. eauto. }
      destruct (job_ok_mono _ h' j Hsub Hjok) as [Hjok' _].
      destruct (job_ok_iterable h' j Hjok') as (d & Hd & Hit).
      exists d. split; [|done]. rewrite <- Hd.
      destruct Hcopy as (_ & d0 & Hd1 & Hd2). unfold Store.snapshot.
      by rewrite Hd1, Hd2. }
    destruct (apply_loop_spec (JobApplicationAgent.customizer self) h'
                (ResumeCustomizer.skills
                   (ResumeCustomizer.get_sample_resume
                      (JobApplicationAgent.customizer self)))
                min_relevance (take n cs) [] Hsnap) as (apps & -> & Happs).
    simpl. eexists _, _. split; [reflexivity|]. simpl. split.
    + by rewrite sort_desc_perm.
    + apply sort_desc_sorted.
  - unfold JobRelevanceClassifier.filter_relevant_jobs.
    destruct (filter_loop_spec resume_skills threshold jobs [] Hjobs)
      as (rel & -> & Hrel). simpl.
    eexists. split; [reflexivity|]. split.
    + by rewrite sort_desc_perm.
    + apply sort_desc_sorted.
Qed.

Lemma relevant_and_ranked_witness :
  let agent :=
    JobApplicationAgent.__init__ (JobScraper.__init__ ∅)
      (ResumeCustomizer.__init__ tt tt) in
  let jobs : list dict :=
    [ {[ "requirements" := VList ["Java"] ]};
      {[ "requirements" := VList ["Python"; "Rust"] ]};
      {[ "title" := VStr "Job 3" ]} ] in
  (∃ res self',
     JobApplicationAgent.run_workflow agent "python" "" 5 (Qc_of_Z 3 / Qc_of_Z 10)%Qc
     = Ok (res, self') ∧
     Forall (λ a, (Qc_of_Z 3 / Qc_of_Z 10
                   ≤ JobApplicationAgent.relevance_score a)%Qc)
            (JobApplicationAgent.applications res) ∧
     non_increasing JobApplicationAgent.relevance_score
       (JobApplicationAgent.applications res)) ∧
  (∃ rel,
     JobRelevanceClassifier.filter_relevant_jobs jobs ["Python"; "Java"] Qc_half
     = Ok rel ∧
     Forall (λ p, (Qc_half ≤ p.2)%Qc) rel ∧
     non_increasing snd rel).
Proof.
  apply (relevant_and_ranked
           (JobApplicationAgent.__init__ (JobScraper.__init__ ∅)
              (ResumeCustomizer.__init__ tt tt))
           "python" "" 5 (Qc_of_Z 3 / Qc_of_Z 10)%Qc
           [ {[ "requirements" := VList ["Java"] ]};
             {[ "requirements" := VList ["Python"; "Rust"] ]};
             {[ "title" := VStr "Job 3" ]} ]
           ["Python"; "Java"] Qc_half).
  - apply (bool_decide_unpack (catalog_ok (JobScraper.__init__ ∅))).
    vm_compute. exact I.
  - repeat constructor; eexists; vm_compute; reflexivity.
Defined.

(** The workflow on the new scraper, run: searching for "python" finds
    five jobs, of which four pass the threshold 0.3, best first. *)
Example run_workflow_ex :
  match JobApplicationAgent.run_workflow
          (JobApplicationAgent.__init__ (JobScraper.__init__ ∅)
             (ResumeCustomizer.__init__ tt tt))
          "python" "" 5 (Qc_of_Z 3 / Qc_of_Z 10)%Qc with
  | Ok (res, _) =>
      (JobApplicationAgent.total_jobs_found res,
       (λ a, Qnum (JobApplicationAgent.relevance_score a)
             # Qden (JobApplicationAgent.relevance_score a))
         <$> JobApplicationAgent.applications res)
  | Raise _ => (0%nat, [])
  end = (5%nat, [(5 # 7)%Q; (4 # 7)%Q; (4 # 7)%Q; (1 # 2)%Q]).
Proof. vm_compute. reflexivity. Qed.

(** ** More on the classifier *)



Lemma truthy_iter (v : value) (js : list string) :
  iter v = Ok js → truthy v = negb (bool_decide (js = [])).
Proof.
  destruct v as [s| |l]; intros [= <-]; simpl; [|done].
  by destruct s.
Qed.

Lemma classify_job_iter (job : dict) (js resume_skills : list string) :
  iter (get job "requirements" (VList [])) = Ok js →
  JobRelevanceClassifier.classify_job job resume_skills
  = Ok (if bool_decide (js = []) then Qc_half
        else coverage (lower_set resume_skills) (lower_set js)).
Proof.
  intros Hjs. unfold JobRelevanceClassifier.classify_job.
  rewrite (truthy_iter _ _ Hjs), negb_involutive.
  case_bool_decide as Hnil; [done|]. rewrite Hjs. simpl.
  pose proof (lower_set_size_pos js Hnil) as Hpos.
  rewrite decide_True by done.
  f_equal. apply Qcmin_le_1, coverage_range, Hpos.
Qed.





Lemma truediv_0_l (n : nat) : truediv 0 n = 0%Qc.
Proof. unfold truediv, Qcdiv. apply Qcmult_0_l. Qed.

(** X3: on a non-empty requirements list the two skill-match entry points
    agree: [classify_job] returns what [calculate_skill_match] computes
    from the same two lists. *)
Theorem classify_job_is_skill_match
    (job : dict) (reqs resume_skills : list string) :
  get job "requirements" (VList []) = VList reqs → reqs ≠ [] →
  JobRelevanceClassifier.classify_job job resume_skills
  = Ok (UtilityFunctions.calculate_skill_match resume_skills reqs).
Proof.
  intros Hreq Hne. rewrite (classify_job_list job reqs) by done. f_equal.
  unfold UtilityFunctions.calculate_skill_match, coverage.
  rewrite bool_decide_eq_false_2 by done.
  rewrite (decide_True (P := (0 < _)%nat)) by by apply lower_set_size_pos.
  case_bool_decide as Hr; [|done]. subst resume_skills.
  assert (lower_set [] ∩ lower_set reqs = ∅) as ->.
  { apply leibniz_equiv. intros x. rewrite elem_of_intersection.
    unfold lower_set. simpl. rewrite elem_of_empty. tauto. }
  by rewrite size_empty, truediv_0_l.
Qed.

Lemma classify_job_is_skill_match_witness :
  JobRelevanceClassifier.classify_job
    {[ "requirements" := VList ["Python"; "Docker"] ]} ["python"]
  = Ok (UtilityFunctions.calculate_skill_match ["python"] ["Python"; "Docker"]).
Proof.
  apply (classify_job_is_skill_match
           {[ "requirements" := VList ["Python"; "Docker"] ]}
           ["Python"; "Docker"] ["python"]).
  - reflexivity.
  - discriminate.
Defined.

Lemma truediv_diag (n : nat) : (0 < n)%nat → truediv n n = 1%Qc.
Proof.
  intros Hn. unfold truediv, Qcdiv. apply Qcmult_inv_r.
  apply not_symmetry, Qclt_not_eq, Qc_of_Z_pos. lia.
Qed.

Lemma get_match_details_iter (job : dict) (js resume_skills : list string) :
  iter (get job "requirements" (VList [])) = Ok js →
  ∃ m, JobRelevanceClassifier.get_match_details job resume_skills = Ok m ∧
    JobRelevanceClassifier.matching_skills m
    = lower_set resume_skills ∩ lower_set js ∧
    JobRelevanceClassifier.missing_skills m
    = lower_set js ∖ lower_set resume_skills ∧
    JobRelevanceClassifier.extra_skills m
    = lower_set resume_skills ∖ lower_set js ∧
    JobRelevanceClassifier.relevance_score m
    = (if bool_decide (js = []) then 0%Qc
       else coverage (lower_set resume_skills) (lower_set js)) ∧
    JobRelevanceClassifier.recommendation m
    = JobRelevanceClassifier._get_recommendation
        (JobRelevanceClassifier.relevance_score m).
Proof.
  intros Hjs. unfold JobRelevanceClassifier.get_match_details.
  rewrite Hjs. simpl. eexists. split; [reflexivity|]. simpl.
  split_and!; [done..| |done].
  case_bool_decide as Hnil.
  - subst js. rewrite decide_False; [done|].
    assert (lower_set [] = ∅) as -> by done. rewrite size_empty. lia.
  - by rewrite decide_True by by apply lower_set_size_pos.
Qed.

(** X4: [get_match_details] splits the two lowercased sets: the matching
    and the missing skills partition the requirements, the matching and
    the extra skills partition the resume skills. Its score is the one of
    [classify_job] when there are requirements; with none it is 0 where
    [classify_job] gives 0.5. *)
Theorem match_details_partition (job : dict) (js resume_skills : list string) :
  iter (get job "requirements" (VList [])) = Ok js →
  ∃ m, JobRelevanceClassifier.get_match_details job resume_skills = Ok m ∧
    let R := lower_set resume_skills in
    let J := lower_set js in
    JobRelevanceClassifier.matching_skills m
      ∪ JobRelevanceClassifier.missing_skills m = J ∧
    JobRelevanceClassifier.matching_skills m
      ## JobRelevanceClassifier.missing_skills m ∧
    JobRelevanceClassifier.matching_skills m
      ∪ JobRelevanceClassifier.extra_skills m = R ∧
    JobRelevanceClassifier.matching_skills m
      ## JobRelevanceClassifier.extra_skills m ∧
    (js ≠ [] →
     JobRelevanceClassifier.classify_job job resume_skills
     = Ok (JobRelevanceClassifier.relevance_score m)) ∧
    (js = [] →
     JobRelevanceClassifier.relevance_score m = 0%Qc ∧
     JobRelevanceClassifier.classify_job job resume_skills = Ok Qc_half).
Proof.
  intros Hjs.
  destruct (get_match_details_iter job js resume_skills Hjs)
    as (m & Hm & Hmatch & Hmiss & Hextra & Hscore & _).
  exists m. split; [done|]. simpl. rewrite Hmatch, Hmiss, Hextra, Hscore.
  rewrite (classify_job_iter job js) by done.
  split_and!.
  - apply leibniz_equiv. intros x.
    rewrite elem_of_union, elem_of_intersection, elem_of_difference.
    destruct (decide (x ∈ lower_set resume_skills)); tauto.
  - intros x. rewrite elem_of_intersection, elem_of_difference. tauto.
  - apply leibniz_equiv. intros x.
    rewrite elem_of_union, elem_of_intersection, elem_of_difference.
    destruct (decide (x ∈ lower_set js)); tauto.
  - intros x. rewrite elem_of_intersection, elem_of_difference. tauto.
  - intros Hne. by rewrite !bool_decide_eq_false_2.
  - intros ->. by rewrite !bool_decide_eq_true_2.
Qed.

Lemma match_details_partition_witness :
  ∃ m, JobRelevanceClassifier.get_match_details
         {[ "requirements" := VList ["Python"; "Docker"; "AWS"] ]}
         ["python"; "Go"] = Ok m ∧
    JobRelevanceClassifier.matching_skills m
      ∪ JobRelevanceClassifier.missing_skills m
    = lower_set ["Python"; "Docker"; "AWS"] ∧
    JobRelevanceClassifier.matching_skills m
      ## JobRelevanceClassifier.missing_skills m.
Proof.
  destruct (match_details_partition
              {[ "requirements" := VList ["Python"; "Docker"; "AWS"] ]}
              ["Python"; "Docker"; "AWS"] ["python"; "Go"])
    as (m & Hm & Hunion & Hdisj & _); [reflexivity|].
  exists m. by split_and!.
Defined.

(** X5: when every requirement is among the resume skills, case folded,
    [get_match_details] reports score 1, no missing skill and "Highly
    Recommended"; when none is, it reports score 0, no matching skill and
    "Not Recommended". *)
Theorem match_details_extremes (job : dict) (js resume_skills : list string) :
  iter (get job "requirements" (VList [])) = Ok js → js ≠ [] →
  ∃ m, JobRelevanceClassifier.get_match_details job resume_skills = Ok m ∧
    (lower_set js ⊆ lower_set resume_skills →
     JobRelevanceClassifier.relevance_score m = 1%Qc ∧
     JobRelevanceClassifier.missing_skills m = ∅ ∧
     JobRelevanceClassifier.recommendation m
     = "Highly Recommended - Strong match") ∧
    (lower_set js ## lower_set resume_skills →
     JobRelevanceClassifier.relevance_score m = 0%Qc ∧
     JobRelevanceClassifier.matching_skills m = ∅ ∧
     JobRelevanceClassifier.recommendation m
     = "Not Recommended - Poor match").
Proof.
  intros Hjs Hne.
  destruct (get_match_details_iter job js resume_skills Hjs)
    as (m & Hm & Hmatch & Hmiss & _ & Hscore & Hrec).
  exists m. split; [done|].
  rewrite bool_decide_eq_false_2 in Hscore by done.
  rewrite Hrec, Hscore, Hmatch, Hmiss. unfold coverage. split.
  - intros Hsub.
    assert (lower_set resume_skills ∩ lower_set js = lower_set js) as ->.
    { apply leibniz_equiv. intros x. rewrite elem_of_intersection.
      split; [tauto|]. intros Hx. split; [by apply Hsub|done]. }
    rewrite truediv_diag by by apply lower_set_size_pos.
    split_and!; [done| |by vm_compute].
    apply leibniz_equiv. intros x. rewrite elem_of_difference, elem_of_empty.
    split; [|done]. intros [Hx Hnx]. by apply Hnx, Hsub.
  - intros Hdisj.
    assert (lower_set resume_skills ∩ lower_set js = ∅) as ->.
    { apply leibniz_equiv. intros x.
      rewrite elem_of_intersection, elem_of_empty.
      split; [|done]. intros [Hr Hj]. by apply (Hdisj x). }
    rewrite size_empty, truediv_0_l. split_and!; [done..|by vm_compute].
Qed.

Lemma match_details_extremes_witness :
  ∃ m, JobRelevanceClassifier.get_match_details
         {[ "requirements" := VList ["Python"; "AWS"] ]}
         ["aws"; "python"; "Go"] = Ok m ∧
    JobRelevanceClassifier.relevance_score m = 1%Qc ∧
    JobRelevanceClassifier.recommendation m
    = "Highly Recommended - Strong match".
Proof.
  destruct (match_details_extremes
              {[ "requirements" := VList ["Python"; "AWS"] ]}
              ["Python"; "AWS"] ["aws"; "python"; "Go"])
    as (m & Hm & Hperfect & _); [reflexivity|discriminate|].
  exists m. split; [exact Hm|].
  destruct Hperfect as (H1 & _ & H3); [|by split].
  apply (bool_decide_unpack
           (lower_set ["Python"; "AWS"] ⊆ lower_set ["aws"; "python"; "Go"])).
  vm_compute. exact I.
Defined.

Section SortFilter.
Context {A : Type} (key : A → Qc) (P : A → Prop) `{!∀ x, Decision (P x)}.

Lemma insert_desc_head (x : A) (l : list A) :
  Forall (λ z, (key z ≤ key x)%Qc) l → insert_desc key Qclt x l = x :: l.
Proof.
  destruct 1 as [|y l Hy _]; [done|]. simpl.
  rewrite decide_False; [done|]. by apply Qcle_ngt.
Qed.

Lemma filter_insert_desc (x : A) (l : list A) :
  non_increasing key l →
  filter P (insert_desc key Qclt x l)
  = if decide (P x) then insert_desc key Qclt x (filter P l) else filter P l.
Proof.
  unfold non_increasing. induction 1 as [|y l Hl IH Hy]; simpl.
  { rewrite filter_cons, filter_nil. by destruct (decide (P x)). }
  destruct (decide (key x < key y)%Qc) as [Hlt|Hge].
  - rewrite !filter_cons, IH.
    destruct (decide (P y)), (decide (P x)); simpl; try done.
    by rewrite decide_True.
  - apply Qcle_ngt in Hge. rewrite (filter_cons _ x).
    destruct (decide (P x)); [|done].
    rewrite insert_desc_head; [done|].
    apply Forall_forall. intros z Hz.
    apply list_elem_of_filter in Hz as [_ Hz].
    apply elem_of_cons in Hz as [->|Hz]; [done|].
    rewrite Forall_forall in Hy. etrans; [by apply Hy|done].
Qed.

Lemma filter_sort_desc (l : list A) :
  filter P (sort_desc key Qclt l) = sort_desc key Qclt (filter P l).
Proof.
  induction l as [|x l IH]; [done|]. simpl.
  rewrite filter_insert_desc by apply sort_desc_sorted.
  rewrite filter_cons, IH. by destruct (decide (P x)).
Qed.
End SortFilter.

Lemma score_of_ok (resume_skills : list string) (job : dict) :
  iterable_requirements job →
  JobRelevanceClassifier.classify_job job resume_skills
  = Ok (score_of resume_skills job).
Proof.
  intros Hjob. unfold score_of.
  by destruct (classify_job_total job resume_skills Hjob) as [s ->].
Qed.

Lemma rank_jobs_scored (jobs : list dict) (resume_skills : list string) :
  Forall iterable_requirements jobs →
  JobRelevanceClassifier.rank_jobs jobs resume_skills
  = Ok (sort_desc snd Qclt (scored resume_skills jobs)).
Proof.
  intros Hok. unfold JobRelevanceClassifier.rank_jobs.
  assert (mapM (λ job,
            score ← JobRelevanceClassifier.classify_job job resume_skills;
            Ok (job, score)) jobs = Ok (scored resume_skills jobs)) as ->; [|done].
  induction Hok as [|job jobs Hjob _ IH]; [done|]. simpl.
  rewrite (score_of_ok resume_skills job Hjob). simpl. by rewrite IH.
Qed.

Lemma filter_loop_scored (resume_skills : list string) (threshold : Qc)
    (jobs : list dict) :
  ∀ relevant : list (dict * Qc),
  Forall iterable_requirements jobs →
  JobRelevanceClassifier.filter_loop jobs resume_skills threshold relevant
  = Ok (relevant
        ++ filter (λ p, (threshold ≤ p.2)%Qc) (scored resume_skills jobs))%list.
Proof.
  induction jobs as [|job jobs IH]; intros relevant Hok.
  { simpl. by rewrite app_nil_r. }
  apply Forall_cons in Hok as [Hjob Hrest].
  change (scored resume_skills (job :: jobs))
    with ((job, score_of resume_skills job) :: scored resume_skills jobs).
  rewrite filter_cons. cbn [JobRelevanceClassifier.filter_loop].
  rewrite (score_of_ok resume_skills job Hjob). simpl.
  rewrite IH by done.
  case_decide; [|done]. by rewrite <- app_assoc.
Qed.

(** X6: [rank_jobs] keeps every job: it returns all the jobs, each with
    the score [classify_job] gives it, in non-increasing order of
    score. *)
Theorem rank_jobs_permutation (jobs : list dict) (resume_skills : list string) :
  Forall iterable_requirements jobs →
  ∃ ranked,
    JobRelevanceClassifier.rank_jobs jobs resume_skills = Ok ranked ∧
    ranked ≡ₚ scored resume_skills jobs ∧
    fst <$> ranked ≡ₚ jobs ∧
    length ranked = length jobs ∧
    Forall (λ p, JobRelevanceClassifier.classify_job p.1 resume_skills
                 = Ok p.2) ranked ∧
    non_increasing snd ranked.
Proof.
  intros Hok. eexists. split; [by apply rank_jobs_scored|].
  pose proof (sort_desc_perm snd (scored resume_skills jobs)) as Hperm.
  split_and!.
  - done.
  - rewrite Hperm. unfold scored. rewrite <- list_fmap_compose.
    by rewrite list_fmap_id.
  - rewrite Hperm. unfold scored. by rewrite length_fmap.
  - rewrite Hperm. unfold scored. apply Forall_fmap.
    eapply Forall_impl; [exact Hok|]. intros job Hjob. simpl.
    by apply score_of_ok.
  - apply sort_desc_sorted.
Qed.

Lemma rank_jobs_permutation_witness :
  ∃ ranked,
    JobRelevanceClassifier.rank_jobs
      [ {[ "requirements" := VList ["Java"] ]};
        {[ "requirements" := VList ["Python"; "Docker"] ]};
        {[ "requirements" := VList ["Python"] ]} ]
      ["Python"; "Docker"] = Ok ranked ∧
    length ranked = 3%nat ∧ non_increasing snd ranked.
Proof.
  destruct (rank_jobs_permutation
              [ {[ "requirements" := VList ["Java"] ]};
                {[ "requirements" := VList ["Python"; "Docker"] ]};
                {[ "requirements" := VList ["Python"] ]} ]
              ["Python"; "Docker"])
    as (ranked & Hr & _ & _ & Hlen & _ & Hsorted).
  - repeat constructor; eexists; vm_compute; reflexivity.
  - exists ranked. by split_and!.
Defined.

(** X7: [filter_relevant_jobs] is [rank_jobs] followed by the threshold:
    it returns the ranked list without the jobs that score below the
    threshold, the others in the same order. *)
Theorem filter_relevant_is_filtered_rank
    (jobs : list dict) (resume_skills : list string) (threshold : Qc) :
  Forall iterable_requirements jobs →
  ∃ ranked,
    JobRelevanceClassifier.rank_jobs jobs resume_skills = Ok ranked ∧
    JobRelevanceClassifier.filter_relevant_jobs jobs resume_skills threshold
    = Ok (filter (λ p, (threshold ≤ p.2)%Qc) ranked).
Proof.
  intros Hok. eexists. split; [by apply rank_jobs_scored|].
  unfold JobRelevanceClassifier.filter_relevant_jobs.
  rewrite (filter_loop_scored resume_skills threshold jobs [] Hok). simpl.
  by rewrite filter_sort_desc.
Qed.

Lemma filter_relevant_is_filtered_rank_witness :
  ∃ ranked,
    JobRelevanceClassifier.rank_jobs
      [ {[ "requirements" := VList ["Java"] ]};
        {[ "requirements" := VList ["Python"; "Docker"] ]};
        {[ "title" := VStr "Job 3" ]} ]
      ["Python"] = Ok ranked ∧
    JobRelevanceClassifier.filter_relevant_jobs
      [ {[ "requirements" := VList ["Java"] ]};
        {[ "requirements" := VList ["Python"; "Docker"] ]};
        {[ "title" := VStr "Job 3" ]} ]
      ["Python"] Qc_half
    = Ok (filter (λ p, (Qc_half ≤ p.2)%Qc) ranked).
Proof.
  apply (filter_relevant_is_filtered_rank
           [ {[ "requirements" := VList ["Java"] ]};
             {[ "requirements" := VList ["Python"; "Docker"] ]};
             {[ "title" := VStr "Job 3" ]} ]
           ["Python"] Qc_half).
  repeat constructor; eexists; vm_compute; reflexivity.
Defined.

(** ** More on the scraper *)

Lemma item_dict_item (h : gmap loc obj) (d : gmap string hval) (k : string) :
  map_Forall (λ _ hv, is_Some (Store.resolve h hv)) d →
  Store.item h d k = dict_item (omap (Store.resolve h) d) k.
Proof.
  intros Hall. unfold Store.item, dict_item. rewrite lookup_omap.
  destruct (d !! k) as [hv|] eqn:Hk; [|done]. simpl.
  by destruct (Hall k hv Hk) as [v ->].
Qed.

Lemma job_ok_resolves (h : gmap loc obj) (j : loc) (d : gmap string hval) :
  job_ok h j → h !! j = Some (ODict d) →
  map_Forall (λ _ hv, is_Some (Store.resolve h hv)) d ∧
  Store.snapshot h j = Some (omap (Store.resolve h) d).
Proof.
  unfold job_ok, Store.snapshot. intros Hok Hj. rewrite Hj in *.
  by destruct Hok.
Qed.

Lemma job_matches_snapshot (kwl : list string) (location : string)
    (h : gmap loc obj) (j : loc) (d : gmap string hval) :
  job_ok h j → h !! j = Some (ODict d) →
  JobScraper.job_matches kwl location h d
  = dict_matches kwl location (omap (Store.resolve h) d).
Proof.
  intros Hok Hj. destruct (job_ok_resolves h j d Hok Hj) as [Hall _].
  unfold JobScraper.job_matches, JobScraper.job_text, dict_matches.
  rewrite !(item_dict_item h d) by done.
  destruct (dict_item _ "title") as [t|]; [|done]. simpl.
  destruct (dict_item _ "description") as [ds|]; [|done]. simpl.
  destruct (dict_item _ "requirements") as [rq|]; [|done]. simpl.
  by destruct (iter rq).
Qed.

Lemma slice_to_fmap {A B} (f : A → B) (limit : Z) (l : list A) :
  f <$> slice_to limit l = slice_to limit (f <$> l).
Proof.
  unfold slice_to. rewrite length_fmap. destruct (0 <=? limit); apply fmap_take.
Qed.

Lemma filter_fmap_Some {A} (P : A → bool) (l : list A) :
  filter (λ o, from_option P false o = true) (Some <$> l)
  = Some <$> filter (λ a, P a = true) l.
Proof.
  induction l as [|a l IH]; [done|].
  rewrite fmap_cons, !filter_cons, IH. simpl. by destruct (decide (P a = true)).
Qed.

Lemma filter_fmap_comm {A B} (f : A → B) (P : B → Prop)
    `{!∀ a, Decision (P (f a)), !∀ b, Decision (P b)} (l : list A) :
  f <$> filter (λ a, P (f a)) l = filter P (f <$> l).
Proof.
  induction l as [|a l IH]; [done|].
  rewrite fmap_cons, !filter_cons.
  destruct (decide (P (f a))), (decide (P (f a))); try done.
  by rewrite fmap_cons, IH.
Qed.

Lemma search_loop_filter (kwl : list string) (keywords location : string)
    (jobs : list loc) :
  kwl = (if truthy (VStr keywords) then Str.split (Str.lower keywords)
         else []) →
  ∀ (h h0 : gmap loc obj) (matched : list loc),
  h0 ⊆ h → Forall (job_ok h0) jobs →
  ∃ cs h',
    JobScraper.search_loop kwl location jobs h matched
    = Ok ((matched ++ cs)%list, h') ∧
    h ⊆ h' ∧
    Forall2 (is_copy h h')
      (filter (λ j, selected_loc keywords location h0 j = true) jobs) cs.
Proof.
  intros Hkwl.
  induction jobs as [|job jobs IH]; intros h h0 matched Hsub0 Hok.
  { exists [], h. simpl. rewrite app_nil_r. split_and!; [done..|constructor]. }
  apply Forall_cons in Hok as [Hjob0 Hrest].
  destruct (job_ok_mono h0 h job Hsub0 Hjob0) as [Hjob Hsnap].
  cbn [JobScraper.search_loop].
  destruct (job_ok_deref h job Hjob) as (d & Hj & -> & _). simpl.
  destruct (job_ok_resolves h job d Hjob Hj) as [_ Hsn].
  destruct (job_matches_total kwl location h job d Hjob Hj) as [b Hb].
  rewrite Hb. simpl.
  assert (Hsel : selected_loc keywords location h0 job = b).
  { unfold selected_loc. rewrite <- Hsnap, Hsn. simpl. unfold selected.
    rewrite <- Hkwl.
    by rewrite <- (job_matches_snapshot _ _ h job d Hjob Hj), Hb. }
  rewrite filter_cons. simpl. destruct b.
  - rewrite decide_True by done.
    set (a := Store.alloc h (ODict d)).
    destruct (IH a.2 h0 (matched ++ [a.1])%list)
      as (cs & h' & -> & Hsub & Hall); [|done|].
    { etrans; [exact Hsub0|apply alloc_subseteq]. }
    exists (a.1 :: cs), h'. rewrite <- app_assoc. simpl.
    split_and!; [done| |].
    + etrans; [apply alloc_subseteq|exact Hsub].
    + constructor; [by apply is_copy_alloc|].
      eapply Forall2_impl; [exact Hall|]. intros ??.
      apply is_copy_weaken, alloc_subseteq.
  - rewrite decide_False by (rewrite Hsel; done).
    destruct (IH h h0 matched Hsub0 Hrest) as (cs & h' & -> & Hsub & Hall).
    by exists cs, h'.
Qed.

Lemma search_jobs_view (s : JobScraper.t) (keywords location : string)
    (limit : Z) (ds : list dict) :
  catalog_ok s → catalog_view s = Some <$> ds →
  ∃ rs s',
    JobScraper.search_jobs s keywords location limit = Ok (rs, s') ∧
    Store.snapshot (JobScraper.heap s') <$> rs
    = Some <$> slice_to limit (search_selects keywords location ds).
Proof.
  intros Hok Hview. unfold JobScraper.search_jobs.
  destruct (search_loop_filter _ keywords location (JobScraper.sample_jobs s)
              eq_refl (JobScraper.heap s) (JobScraper.heap s) []
              (reflexivity _) Hok)
    as (cs & h' & -> & Hsub & Hall).
  eexists _, _. split; [reflexivity|]. cbn [fst snd JobScraper.heap app].
  rewrite !slice_to_fmap. f_equal.
  erewrite (copies_snapshot (JobScraper.heap s) h'); [|done| |exact Hall];
    [|eapply Forall_of_sublist; [apply sublist_filter|exact Hok]].
  unfold search_selects. rewrite <- filter_fmap_Some, <- Hview.
  unfold catalog_view, selected_loc.
  apply (filter_fmap_comm (Store.snapshot (JobScraper.heap s))
           (λ o, from_option (selected keywords location) false o = true)).
Qed.

(** X8: [search_jobs] returns copies of exactly the catalog entries that
    pass the keyword and location checks, in catalog order, cut by
    [matched_jobs[:limit]]: the first [limit] of them when
    [limit >= 0], all but the last [-limit] when it is negative. *)
Theorem search_jobs_selects (s : JobScraper.t) (keywords location : string)
    (limit : Z) (ds : list dict) :
  catalog_ok s → catalog_view s = Some <$> ds →
  ∃ rs s',
    JobScraper.search_jobs s keywords location limit = Ok (rs, s') ∧
    Store.snapshot (JobScraper.heap s') <$> rs
    = Some <$> slice_to limit (search_selects keywords location ds).
Proof. apply search_jobs_view. Qed.

Lemma search_jobs_selects_witness :
  ∃ rs s',
    JobScraper.search_jobs (JobScraper.__init__ ∅) "Kafka REACT" "" (-1)
    = Ok (rs, s') ∧
    (λ o, d ← o; d !! "id") <$> (Store.snapshot (JobScraper.heap s') <$> rs)
    = [Some (VStr "job_002"); Some (VStr "job_005")].
Proof.
  destruct (search_jobs_selects (JobScraper.__init__ ∅) "Kafka REACT" "" (-1)
              catalog_dicts) as (rs & s' & Hs & Hview).
  - apply (bool_decide_unpack (catalog_ok (JobScraper.__init__ ∅))).
    vm_compute. exact I.
  - apply (bool_decide_unpack
             (catalog_view (JobScraper.__init__ ∅) = Some <$> catalog_dicts)).
    vm_compute. exact I.
  - exists rs, s'. split; [exact Hs|].
    rewrite Hview. vm_compute. reflexivity.
Defined.

Lemma lower_truthy (a b : string) :
  Str.lower a = Str.lower b → truthy (VStr a) = truthy (VStr b).
Proof. by destruct a, b. Qed.

Lemma job_matches_lower (kwl : list string) (loc1 loc2 : string)
    (h : gmap loc obj) (d : gmap string hval) :
  Str.lower loc1 = Str.lower loc2 →
  JobScraper.job_matches kwl loc1 h d = JobScraper.job_matches kwl loc2 h d.
Proof.
  intros Hl. unfold JobScraper.job_matches.
  by rewrite (lower_truthy loc1 loc2 Hl), Hl.
Qed.

Lemma search_loop_lower (kwl : list string) (loc1 loc2 : string)
    (jobs : list loc) :
  Str.lower loc1 = Str.lower loc2 →
  ∀ (h : gmap loc obj) (matched : list loc),
  JobScraper.search_loop kwl loc1 jobs h matched
  = JobScraper.search_loop kwl loc2 jobs h matched.
Proof.
  intros Hl. induction jobs as [|job jobs IH]; intros h matched; [done|].
  cbn [JobScraper.search_loop].
  destruct (Store.deref_dict h job) as [d|]; [|done]. simpl.
  rewrite (job_matches_lower kwl loc1 loc2 h d Hl).
  destruct (JobScraper.job_matches kwl loc2 h d) as [[]|]; simpl; by rewrite ?IH.
Qed.

(** X9: [search_jobs] is case-insensitive in both criteria: keywords that
    agree once lowercased, and locations that do, give the same result on
    every scraper. *)
Theorem search_jobs_case_insensitive (s : JobScraper.t)
    (kw1 kw2 loc1 loc2 : string) (limit : Z) :
  Str.lower kw1 = Str.lower kw2 → Str.lower loc1 = Str.lower loc2 →
  JobScraper.search_jobs s kw1 loc1 limit
  = JobScraper.search_jobs s kw2 loc2 limit.
Proof.
  intros Hkw Hloc. unfold JobScraper.search_jobs.
  by rewrite (lower_truthy kw1 kw2 Hkw), Hkw, (search_loop_lower _ loc1 loc2).
Qed.

Lemma search_jobs_case_insensitive_witness :
  JobScraper.search_jobs (JobScraper.__init__ ∅) "PYTHON Aws" "REMOTE" 5
  = JobScraper.search_jobs (JobScraper.__init__ ∅) "python aWS" "remote" 5.
Proof.
  apply (search_jobs_case_insensitive (JobScraper.__init__ ∅)
           "PYTHON Aws" "python aWS" "REMOTE" "remote" 5); reflexivity.
Defined.

Lemma by_id_loop_find (job_id : string) (jobs : list loc) (h : gmap loc obj) :
  ∀ ds : list dict,
  Forall (job_ok h) jobs → Store.snapshot h <$> jobs = Some <$> ds →
  ∃ r h',
    JobScraper.by_id_loop job_id jobs h = Ok (r, h') ∧ h ⊆ h' ∧
    match r with
    | Some c => (c ∉ dom h) ∧ ∃ d, find (has_id job_id) ds = Some d ∧
                                   Store.snapshot h' c = Some d
    | None => find (has_id job_id) ds = None ∧ h' = h
    end.
Proof.
  induction jobs as [|job jobs IH]; intros ds Hok Hds.
  { destruct ds; [|done]. by exists None, h. }
  destruct ds as [|d0 ds]; [done|].
  rewrite !fmap_cons in Hds. injection Hds as Hd0 Hds.
  apply Forall_cons in Hok as [Hjob Hrest].
  cbn [JobScraper.by_id_loop find].
  destruct (job_ok_deref h job Hjob) as (d & Hj & -> & [sid Hid] & _). simpl.
  destruct (job_ok_resolves h job d Hjob Hj) as [Hall Hsn].
  assert (d0 = omap (Store.resolve h) d) as -> by congruence.
  rewrite Hid. simpl.
  assert (Hhas : has_id job_id (omap (Store.resolve h) d)
                 = bool_decide (VStr sid = VStr job_id)).
  { unfold has_id. rewrite (item_dict_item h d) in Hid by done.
    unfold dict_item in Hid.
    destruct (_ !! "id") as [v|]; [|done]. injection Hid as ->.
    apply bool_decide_ext. split; congruence. }
  rewrite Hhas. case_bool_decide as Heq.
  - exists (Some (Store.alloc h (ODict d)).1), (Store.alloc h (ODict d)).2.
    split_and!; [done|apply alloc_subseteq|apply alloc_fresh|].
    eexists. split; [done|].
    unfold Store.snapshot. rewrite alloc_lookup. f_equal.
    apply snapshot_items_mono; [apply alloc_subseteq|done].
  - by apply IH.
Qed.

(** X10: [get_job_by_id] returns a copy of the first catalog entry whose
    ['id'] is the given string, and [None] exactly when no entry has that
    id; in the latter case the store is left as it was. *)
Theorem get_job_by_id_finds (s : JobScraper.t) (job_id : string)
    (ds : list dict) :
  catalog_ok s → catalog_view s = Some <$> ds →
  ∃ r s',
    JobScraper.get_job_by_id s job_id = Ok (r, s') ∧
    match r with
    | Some c => (c ∉ dom (JobScraper.heap s)) ∧
                ∃ d, find (has_id job_id) ds = Some d ∧
                     Store.snapshot (JobScraper.heap s') c = Some d ∧
                     d !! "id" = Some (VStr job_id)
    | None => Forall (λ d, d !! "id" ≠ Some (VStr job_id)) ds ∧ s' = s
    end.
Proof.
  intros Hok Hview. unfold JobScraper.get_job_by_id.
  destruct (by_id_loop_find job_id _ _ ds Hok Hview)
    as (r & h' & -> & Hsub & Hr).
  simpl. eexists _, _. split; [reflexivity|]. destruct r as [c|].
  - destruct Hr as (Hfresh & d & Hfind & Hsnap). split; [done|].
    exists d. split_and!; [done..|].
    apply find_some in Hfind as [_ Hid]. by apply bool_decide_eq_true in Hid.
  - destruct Hr as [Hfind ->]. split; [|by destruct s].
    apply Forall_forall. intros d Hd Hid.
    apply list_elem_of_In in Hd.
    pose proof (find_none _ _ Hfind d Hd) as Hno.
    unfold has_id in Hno. by rewrite bool_decide_eq_true_2 in Hno.
Qed.

Lemma get_job_by_id_finds_witness :
  ∃ s', JobScraper.get_job_by_id (JobScraper.__init__ ∅) "job_999"
        = Ok (None, s') ∧ s' = JobScraper.__init__ ∅.
Proof.
  destruct (get_job_by_id_finds (JobScraper.__init__ ∅) "job_999"
              catalog_dicts) as (r & s' & Hs & Hr).
  - apply (bool_decide_unpack (catalog_ok (JobScraper.__init__ ∅))).
    vm_compute. exact I.
  - apply (bool_decide_unpack
             (catalog_view (JobScraper.__init__ ∅) = Some <$> catalog_dicts)).
    vm_compute. exact I.
  - exists s'. destruct r as [c|].
    + exfalso. destruct Hr as (_ & d & Hfind & _). revert Hfind.
      vm_compute. discriminate.
    + split; [exact Hs|apply Hr].
Defined.

(** X11: [get_all_jobs] returns one copy of every catalog entry, in
    catalog order: as many dictionaries as [get_job_count] counts, each
    new and with the contents of its entry. *)
Theorem get_all_jobs_copies (s : JobScraper.t) :
  catalog_ok s →
  ∃ rs s',
    JobScraper.get_all_jobs s = Ok (rs, s') ∧
    length rs = JobScraper.get_job_count s ∧
    Store.snapshot (JobScraper.heap s') <$> rs = catalog_view s ∧
    Forall (λ c, c ∉ dom (JobScraper.heap s)) rs.
Proof.
  intros Hok. unfold JobScraper.get_all_jobs.
  destruct (copy_all_spec _ _ Hok) as (cs & h' & -> & Hsub & Hall & _).
  simpl. eexists _, _. split; [reflexivity|]. simpl. split_and!.
  - symmetry. by eapply Forall2_length.
  - by apply copies_snapshot.
  - apply Forall_forall. intros c Hc.
    apply list_elem_of_lookup in Hc as [i Hi].
    by destruct (Forall2_lookup_r _ _ _ _ _ Hall Hi) as (j & _ & [Hfresh _]).
Qed.

Lemma get_all_jobs_copies_witness :
  ∃ rs s',
    JobScraper.get_all_jobs (JobScraper.__init__ ∅) = Ok (rs, s') ∧
    length rs = 8%nat ∧
    Store.snapshot (JobScraper.heap s') <$> rs
    = catalog_view (JobScraper.__init__ ∅).
Proof.
  destruct (get_all_jobs_copies (JobScraper.__init__ ∅))
    as (rs & s' & Hs & Hlen & Hview & _).
  - apply (bool_decide_unpack (catalog_ok (JobScraper.__init__ ∅))).
    vm_compute. exact I.
  - exists rs, s'. split_and!; [exact Hs|exact Hlen|exact Hview].
Defined.







Lemma truediv_pos (a b : nat) :
  (0 < a)%nat → (0 < b)%nat → (0 < truediv a b)%Qc.
Proof.
  intros Ha Hb. unfold truediv, Qcdiv.
  apply Qcmult_pos_pos; [|apply Qcinv_pos]; apply Qc_of_Z_pos; lia.
Qed.

Lemma coverage_pos (R J : gset string) :
  J ≠ ∅ → (0 < coverage R J)%Qc ↔ R ∩ J ≠ ∅.
Proof.
  intros HJ. unfold coverage.
  assert (0 < size J)%nat as Hpos.
  { apply Nat.neq_0_lt_0. intros H%size_empty_inv. by apply leibniz_equiv in H. }
  split.
  - intros Hlt Hem. rewrite Hem, size_empty, truediv_0_l in Hlt.
    by apply Qclt_not_eq in Hlt.
  - intros Hne. apply truediv_pos; [|done].
    apply Nat.neq_0_lt_0. intros H%size_empty_inv. by apply leibniz_equiv in H.
Qed.

(** X14: [filter_by_skills] keeps, in the order given, exactly the jobs
    that have requirements and that [classify_job] scores above 0 against
    the required skills; it raises a TypeError when the requirements of
    some job are an int. *)
Theorem filter_by_skills_spec (jobs : list dict) (required_skills : list string) :
  JobScraper.filter_by_skills jobs required_skills
  = if decide (Forall iterable_requirements jobs)
    then Ok (filter (λ job, reqs_of job ≠ [] ∧
                            (0 < score_of required_skills job)%Qc) jobs)
    else Raise TypeError.
Proof.
  induction jobs as [|job jobs IH]; [done|].
  cbn [JobScraper.filter_by_skills]. rewrite filter_cons.
  destruct (iter (get job "requirements" (VList []))) as [js|e] eqn:Hjs.
  - simpl. rewrite IH. case_decide as Hall.
    + rewrite decide_True by (constructor; [by exists js|done]). simpl.
      f_equal. unfold reqs_of, score_of. rewrite Hjs.
      rewrite (classify_job_iter job js) by done.
      destruct (decide (js = [])) as [->|Hne].
      * rewrite bool_decide_eq_false_2, decide_False; [done|tauto|].
        intros Hx. apply Hx. apply leibniz_equiv. intros x.
        rewrite elem_of_intersection. unfold lower_set at 2. simpl.
        rewrite elem_of_empty. tauto.
      * rewrite (bool_decide_eq_false_2 (js = [])) by done.
        assert (lower_set js ≠ ∅) as HJ by (by rewrite lower_set_nil).
        pose proof (coverage_pos (lower_set required_skills) _ HJ) as Hc.
        case_bool_decide; [rewrite decide_True|rewrite decide_False];
          try done; tauto.
    + rewrite decide_False; [done|]. by intros [_ ?]%Forall_cons.
  - simpl. rewrite decide_False; [|intros [[js' Hjs'] _]%Forall_cons; congruence].
    destruct (get job "requirements" (VList [])) as [| |]; simpl in Hjs;
      congruence.
Qed.

(** ** More on the customizer *)

Lemma length_chars (s : string) : length (Str.chars s) = String.length s.
Proof.
  unfold Str.chars. rewrite length_map.
  induction s as [|c s IH]; simpl; [done|by rewrite IH].
Qed.

Lemma iter_len_eq (v : value) (js : list string) :
  iter v = Ok js → len v = Ok (length js).
Proof.
  destruct v as [s| |l]; intros [= <-]; simpl; [|done].
  by rewrite length_chars.
Qed.

Lemma customize_for_job_fields {Model Vocab}
    (self : ResumeCustomizer.t Model Vocab) (job : dict) (js : list string) :
  iter (get job "requirements" (VList [])) = Ok js →
  let sr := ResumeCustomizer.sample_resume self in
  let matching := matching_of (ResumeCustomizer.skills sr) js in
  ∃ r, ResumeCustomizer.customize_for_job self job = Ok r ∧
    ResumeCustomizer.name r = ResumeCustomizer.name sr ∧
    ResumeCustomizer.email r = ResumeCustomizer.email sr ∧
    ResumeCustomizer.phone r = ResumeCustomizer.phone sr ∧
    ResumeCustomizer.location r = ResumeCustomizer.location sr ∧
    ResumeCustomizer.experience r = ResumeCustomizer.experience sr ∧
    ResumeCustomizer.education r = ResumeCustomizer.education sr ∧
    ResumeCustomizer.certifications r = ResumeCustomizer.certifications sr ∧
    ResumeCustomizer.skills r
    = take 10 (matching
               ++ filter (λ s, Str.lower s ∉ lower_set js)
                         (ResumeCustomizer.skills sr))%list ∧
    ResumeCustomizer.experience_details r
    = snd <$> take 4 (sort_desc fst lt
                        ((λ exp, (experience_score js exp, exp))
                           <$> ResumeCustomizer.experience_details sr)) ∧
    ResumeCustomizer.customized_for r
    = Some {| ResumeCustomizer.job_title := get job "title" (VStr EmptyString);
              ResumeCustomizer.company := get job "company" (VStr EmptyString);
              ResumeCustomizer.matching_skills := matching;
              ResumeCustomizer.match_score :=
                if bool_decide (js = []) then 0%Qc
                else truediv (length matching) (length js) |}.
Proof.
  intros Hv sr matching. unfold ResumeCustomizer.customize_for_job.
  rewrite (get_matching_skills_ok _ js) by done. simpl.
  unfold ResumeCustomizer._select_relevant_experience. rewrite Hv. simpl.
  rewrite (truthy_iter _ _ Hv), (iter_len_eq _ _ Hv).
  case_bool_decide; simpl; eexists; (split; [reflexivity|]); simpl;
    split_and!; try done; by rewrite prioritized_skills_split.
Qed.

(** X15: whatever the sample resume holds, the customized resume keeps
    its name, email, phone, location, experience, education and
    certifications, and its skills are the first ten of the resume's
    skills reordered with the matching ones first: none is invented, and
    no matching skill is dropped while a non-matching one is kept. *)
Theorem customize_keeps_identity {Model Vocab}
    (self : ResumeCustomizer.t Model Vocab) (job : dict) (js : list string) :
  iter (get job "requirements" (VList [])) = Ok js →
  let sr := ResumeCustomizer.sample_resume self in
  let matching := matching_of (ResumeCustomizer.skills sr) js in
  let others :=
    filter (λ s, Str.lower s ∉ lower_set js) (ResumeCustomizer.skills sr) in
  ∃ r, ResumeCustomizer.customize_for_job self job = Ok r ∧
    ResumeCustomizer.name r = ResumeCustomizer.name sr ∧
    ResumeCustomizer.email r = ResumeCustomizer.email sr ∧
    ResumeCustomizer.phone r = ResumeCustomizer.phone sr ∧
    ResumeCustomizer.location r = ResumeCustomizer.location sr ∧
    ResumeCustomizer.experience r = ResumeCustomizer.experience sr ∧
    ResumeCustomizer.education r = ResumeCustomizer.education sr ∧
    ResumeCustomizer.certifications r = ResumeCustomizer.certifications sr ∧
    ResumeCustomizer.skills r = take 10 (matching ++ others)%list ∧
    (matching ++ others)%list ≡ₚ ResumeCustomizer.skills sr ∧
    length (ResumeCustomizer.skills r)
    = (10 `min` length (ResumeCustomizer.skills sr))%nat.
Proof.
  intros Hv sr matching others.
  destruct (customize_for_job_fields self job js Hv)
    as (r & Hr & H1 & H2 & H3 & H4 & H5 & H6 & H7 & Hskills & _).
  assert (Hperm : (matching ++ others)%list ≡ₚ ResumeCustomizer.skills sr)
    by apply filter_app_complement.
  exists r. split_and!; try done.
  rewrite Hskills, length_take. fold sr matching others. by rewrite Hperm.
Qed.

Lemma customize_keeps_identity_witness :
  ∃ r, ResumeCustomizer.customize_for_job (ResumeCustomizer.__init__ tt tt)
         {[ "requirements" := VList ["aws"; "GIT"; "Rust"] ]} = Ok r ∧
    ResumeCustomizer.name r = "Alex Chen" ∧
    length (ResumeCustomizer.skills r) = 9%nat.
Proof.
  destruct (customize_keeps_identity (ResumeCustomizer.__init__ tt tt)
              {[ "requirements" := VList ["aws"; "GIT"; "Rust"] ]}
              ["aws"; "GIT"; "Rust"])
    as (r & Hr & Hname & _ & _ & _ & _ & _ & _ & _ & _ & Hlen);
    [reflexivity|].
  exists r. split_and!; [exact Hr|exact Hname|exact Hlen].
Defined.



Section SortDescNat.
Context {A : Type} (key : A → nat).

Lemma insert_desc_nat_perm (x : A) (l : list A) :
  insert_desc key lt x l ≡ₚ x :: l.
Proof.
  induction l as [|y l IH]; [done|]. simpl. case_decide; [|done].
  rewrite IH. apply Permutation_swap.
Qed.

Lemma sort_desc_nat_perm (l : list A) : sort_desc key lt l ≡ₚ l.
Proof.
  induction l as [|x l IH]; [done|]. simpl.
  by rewrite insert_desc_nat_perm, IH.
Qed.

Lemma insert_desc_nat_sorted (x : A) (l : list A) :
  StronglySorted (λ a b, key b ≤ key a)%nat l →
  StronglySorted (λ a b, key b ≤ key a)%nat (insert_desc key lt x l).
Proof.
  induction 1 as [|y l Hl IH Hy]; simpl.
  { repeat constructor. }
  case_decide as Hlt.
  - constructor; [done|]. rewrite insert_desc_nat_perm.
    constructor; [lia|done].
  - constructor; [by constructor|]. constructor; [lia|].
    eapply Forall_impl; [exact Hy|]. intros z Hz. simpl in Hz. lia.
Qed.

Lemma sort_desc_nat_sorted (l : list A) :
  StronglySorted (λ a b, key b ≤ key a)%nat (sort_desc key lt l).
Proof.
  induction l as [|x l IH]; [constructor|]. by apply insert_desc_nat_sorted.
Qed.

Lemma insert_desc_decorate (x : A) (l : list A) :
  insert_desc fst lt (key x, x) ((λ a, (key a, a)) <$> l)
  = (λ a, (key a, a)) <$> insert_desc key lt x l.
Proof.
  induction l as [|y l IH]; [done|]. simpl.
  case_decide; [|done]. simpl. by f_equal.
Qed.

Lemma sort_desc_decorate (l : list A) :
  snd <$> sort_desc fst lt ((λ a, (key a, a)) <$> l) = sort_desc key lt l.
Proof.
  assert (sort_desc fst lt ((λ a, (key a, a)) <$> l)
          = (λ a, (key a, a)) <$> sort_desc key lt l) as ->.
  { induction l as [|x l IH]; [done|]. rewrite fmap_cons.
    change (sort_desc fst lt ((key x, x) :: ((λ a, (key a, a)) <$> l)))
      with (insert_desc fst lt (key x, x)
              (sort_desc fst lt ((λ a, (key a, a)) <$> l))).
    rewrite IH. apply insert_desc_decorate. }
  rewrite <- list_fmap_compose. apply list_fmap_id.
Qed.
End SortDescNat.

(** X17: the experience lines of the customized resume are the first
    four of the resume's lines put in non-increasing order of the number
    of distinct lowercased requirements each contains; with four lines or
    fewer, as in the built-in resume, they are a permutation of them. *)
Theorem customize_ranks_experience {Model Vocab}
    (self : ResumeCustomizer.t Model Vocab) (job : dict) (js : list string) :
  iter (get job "requirements" (VList [])) = Ok js →
  let details :=
    ResumeCustomizer.experience_details
      (ResumeCustomizer.sample_resume self) in
  ∃ r ranked, ResumeCustomizer.customize_for_job self job = Ok r ∧
    ranked ≡ₚ details ∧
    StronglySorted
      (λ a b, experience_score js b ≤ experience_score js a)%nat ranked ∧
    ResumeCustomizer.experience_details r = take 4 ranked ∧
    ((length details ≤ 4)%nat →
     ResumeCustomizer.experience_details r ≡ₚ details).
Proof.
  intros Hv details.
  destruct (customize_for_job_fields self job js Hv)
    as (r & Hr & _ & _ & _ & _ & _ & _ & _ & _ & Hexp & _).
  fold details in Hexp.
  exists r, (sort_desc (experience_score js) lt details).
  pose proof (sort_desc_nat_perm (experience_score js) details) as Hperm.
  split_and!; [done|done|apply sort_desc_nat_sorted| |].
  - by rewrite Hexp, fmap_take, sort_desc_decorate.
  - intros Hlen. rewrite Hexp, fmap_take, sort_desc_decorate.
    rewrite take_ge; [done|]. by rewrite Hperm.
Qed.

Lemma customize_ranks_experience_witness :
  ∃ r, ResumeCustomizer.customize_for_job (ResumeCustomizer.__init__ tt tt)
         {[ "requirements" := VList ["Kubernetes"; "ML"] ]} = Ok r ∧
    ResumeCustomizer.experience_details r
    ≡ₚ ResumeCustomizer.experience_details
         (ResumeCustomizer.sample_resume (ResumeCustomizer.__init__ tt tt)).
Proof.
  destruct (customize_ranks_experience (ResumeCustomizer.__init__ tt tt)
              {[ "requirements" := VList ["Kubernetes"; "ML"] ]}
              ["Kubernetes"; "ML"])
    as (r & ranked & Hr & _ & _ & _ & Hperm); [reflexivity|].
  exists r. split; [exact Hr|]. apply Hperm. simpl. lia.
Defined.

Example customize_ranks_experience_ex :
  match ResumeCustomizer.customize_for_job (ResumeCustomizer.__init__ tt tt)
          {[ "requirements" := VList ["Kubernetes"; "ML"] ]} with
  | Ok r => String.substring 0 12 <$> ResumeCustomizer.experience_details r
  | Raise _ => []
  end = ["Architected "; "Implemented "; "Led team of "; "Reduced API "].
Proof. vm_compute. reflexivity. Qed.

Lemma size_list_to_set_le (l : list string) :
  (size (list_to_set l : gset string) ≤ length l)%nat.
Proof.
  induction l as [|x l IH].
  { rewrite list_to_set_nil, size_empty. done. }
  rewrite list_to_set_cons, length_cons, size_union_alt, size_singleton.
  pose proof (subseteq_size (list_to_set l ∖ {[x]}) (list_to_set l : gset string))
    as Hle.
  assert (list_to_set l ∖ {[x]} ⊆ (list_to_set l : gset string)) as Hsub.
  { intros y. rewrite elem_of_difference. tauto. }
  specialize (Hle Hsub). lia.
Qed.

Lemma truediv_anti (a b1 b2 : nat) :
  (0 < b2)%nat → (b2 ≤ b1)%nat → (truediv a b1 ≤ truediv a b2)%Qc.
Proof.
  intros Hpos Hle.
  assert (Hb1 : (0 < Qc_of_Z (Z.of_nat b1))%Qc) by (apply Qc_of_Z_pos; lia).
  apply (Qcmult_le_mono_pos_l _ _ _ Hb1). rewrite truediv_mult by lia.
  rewrite <- (truediv_mult a b2) at 1 by done.
  apply Qcmult_le_mono_nonneg_r.
  - apply (Qcmult_le_mono_pos_l _ _ (Qc_of_Z (Z.of_nat b2))).
    + apply Qc_of_Z_pos. lia.
    + rewrite truediv_mult by done. rewrite Qcmult_0_r.
      apply (Qc_of_Z_le 0). lia.
  - apply Qc_of_Z_le. lia.
Qed.

Lemma length_matching_of (skills js : list string) :
  NoDup (Str.lower <$> skills) →
  length (matching_of skills js) = size (lower_set skills ∩ lower_set js).
Proof.
  intros Hnd. unfold matching_of.
  assert (Hnd' : NoDup (Str.lower
                          <$> filter (λ s, Str.lower s ∈ lower_set js) skills)).
  { rewrite (filter_fmap_comm Str.lower (λ x, x ∈ lower_set js)).
    by apply NoDup_filter. }
  rewrite <- (length_fmap Str.lower).
  rewrite <- (size_list_to_set (C := gset string)) by done.
  f_equal. apply leibniz_equiv. intros x.
  rewrite elem_of_list_to_set, elem_of_intersection.
  rewrite (filter_fmap_comm Str.lower (λ x, x ∈ lower_set js)).
  rewrite list_elem_of_filter. unfold lower_set at 2.
  rewrite elem_of_list_to_set. tauto.
Qed.

(** X18: for a resume whose skills differ pairwise once lowercased, as
    the built-in one, the ['match_score'] of the customized resume is the
    number of matching skills over the length of the requirements list.
    It lies in [0, 1] and never exceeds the score of [classify_job],
    which divides by the number of distinct lowercased requirements; the
    two are equal when the requirements differ pairwise once
    lowercased. *)
Theorem customize_match_score {Model Vocab}
    (self : ResumeCustomizer.t Model Vocab) (job : dict) (js : list string) :
  iter (get job "requirements" (VList [])) = Ok js → js ≠ [] →
  let skills := ResumeCustomizer.skills (ResumeCustomizer.sample_resume self) in
  NoDup (Str.lower <$> skills) →
  ∃ r c, ResumeCustomizer.customize_for_job self job = Ok r ∧
    ResumeCustomizer.customized_for r = Some c ∧
    ResumeCustomizer.match_score c
    = truediv (size (lower_set skills ∩ lower_set js)) (length js) ∧
    (0 ≤ ResumeCustomizer.match_score c)%Qc ∧
    (ResumeCustomizer.match_score c ≤ 1)%Qc ∧
    (ResumeCustomizer.match_score c ≤ score_of skills job)%Qc ∧
    (NoDup (Str.lower <$> js) →
     JobRelevanceClassifier.classify_job job skills
     = Ok (ResumeCustomizer.match_score c)).
Proof.
  intros Hv Hne skills Hnd.
  destruct (customize_for_job_fields self job js Hv)
    as (r & Hr & _ & _ & _ & _ & _ & _ & _ & _ & _ & Hc).
  eexists r, _. split; [done|]. split; [exact Hc|]. simpl.
  rewrite bool_decide_eq_false_2 by done. fold skills.
  rewrite (length_matching_of skills js Hnd).
  pose proof (size_list_to_set_le (Str.lower <$> js)) as Hsize.
  rewrite length_fmap in Hsize. fold (lower_set js) in Hsize.
  pose proof (lower_set_size_pos js Hne) as Hpos.
  assert (Hcap : (size (lower_set skills ∩ lower_set js)
                  ≤ size (lower_set js))%nat)
    by apply subseteq_size, intersection_subseteq_r.
  unfold score_of. rewrite (classify_job_iter job js) by done.
  rewrite bool_decide_eq_false_2 by done. unfold coverage.
  split_and!.
  - done.
  - apply truediv_range; lia.
  - apply truediv_range; lia.
  - by apply truediv_anti.
  - intros Hndj. do 2 f_equal.
    assert (size (lower_set js) = length js) as ->; [|done].
    unfold lower_set. by rewrite size_list_to_set, length_fmap.
Qed.

Lemma customize_match_score_witness :
  ∃ r c, ResumeCustomizer.customize_for_job (ResumeCustomizer.__init__ tt tt)
           {[ "requirements" := VList ["Python"; "python"; "Rust"] ]} = Ok r ∧
    ResumeCustomizer.customized_for r = Some c ∧
    ResumeCustomizer.match_score c = (Qc_of_Z 1 / Qc_of_Z 3)%Qc ∧
    JobRelevanceClassifier.classify_job
      {[ "requirements" := VList ["Python"; "python"; "Rust"] ]}
      ResumeCustomizer.sample_skills = Ok Qc_half.
Proof.
  destruct (customize_match_score (ResumeCustomizer.__init__ tt tt)
              {[ "requirements" := VList ["Python"; "python"; "Rust"] ]}
              ["Python"; "python"; "Rust"])
    as (r & c & Hr & Hc & Hscore & _).
  - reflexivity.
  - discriminate.
  - apply (bool_decide_unpack _). vm_compute. exact I.
  - exists r, c. split_and!; [exact Hr|exact Hc| |].
    + rewrite Hscore. vm_compute. reflexivity.
    + vm_compute. reflexivity.
Defined.

(** ** More on the agent *)

Lemma apply_loop_jobs {Model Vocab} (cust : ResumeCustomizer.t Model Vocab)
    (h : gmap loc obj) (resume_skills : list string) (min_relevance : Qc)
    (jobs : list loc) :
  ∀ applications : list JobApplicationAgent.Application,
  Forall (λ j, ∃ d, Store.snapshot h j = Some d ∧ iterable_requirements d)
         jobs →
  ∃ apps,
    JobApplicationAgent.apply_loop cust h resume_skills min_relevance jobs
      applications = Ok (applications ++ apps)%list ∧
    Forall (λ a, (min_relevance ≤ JobApplicationAgent.relevance_score a)%Qc ∧
                 JobApplicationAgent.job a ∈ jobs) apps.
Proof.
  induction jobs as [|j jobs IH]; intros applications Hok.
  { exists []. by rewrite app_nil_r. }
  apply Forall_cons in Hok as [(d & Hsn & Hd) Hrest].
  cbn [JobApplicationAgent.apply_loop]. rewrite Hsn. simpl.
  destruct (classify_job_total d resume_skills Hd) as [score ->]. simpl.
  case_decide as Hs.
  - destruct Hd as [js Hjs].
    destruct (customize_for_job_ok cust d js Hjs) as (r & -> & _). simpl.
    unfold JobRelevanceClassifier.get_match_details. rewrite Hjs. simpl.
    match goal with
    | |- context [JobApplicationAgent.apply_loop _ _ _ _ _ (_ ++ [?a])] =>
        destruct (IH (applications ++ [a])%list Hrest) as (apps & -> & Happs);
        exists (a :: apps)
    end.
    rewrite <- app_assoc. split; [done|]. constructor.
    + split; [done|]. simpl. by left.
    + eapply Forall_impl; [exact Happs|]. intros a [? ?]. split; [done|].
      by right.
  - destruct (IH applications Hrest) as (apps & -> & Happs). exists apps.
    split; [done|]. eapply Forall_impl; [exact Happs|]. intros a [? ?].
    split; [done|]. by right.
Qed.

Lemma run_workflow_spec {Model Vocab}
    (self : JobApplicationAgent.t Model Vocab)
    (keywords location : string) (num_jobs : Z) (min_relevance : Qc) :
  catalog_ok (JobApplicationAgent.scraper self) →
  ∃ (rs : list loc) (s1 : JobScraper.t)
    (apps : list JobApplicationAgent.Application),
    JobScraper.heap (JobApplicationAgent.scraper self) ⊆ JobScraper.heap s1 ∧
    JobScraper.sample_jobs s1
    = JobScraper.sample_jobs (JobApplicationAgent.scraper self) ∧
    Forall (λ a, (min_relevance ≤ JobApplicationAgent.relevance_score a)%Qc ∧
                 is_Some (Store.snapshot (JobScraper.heap s1)
                            (JobApplicationAgent.job a))) apps ∧
    JobApplicationAgent.run_workflow self keywords location num_jobs
      min_relevance
    = Ok (if bool_decide (rs = []) then
            ({| JobApplicationAgent.total_jobs_found := 0;
                JobApplicationAgent.relevant_jobs := 0;
                JobApplicationAgent.applications := [] |},
             {| JobApplicationAgent.scraper := s1;
                JobApplicationAgent.customizer :=
                  JobApplicationAgent.customizer self;
                JobApplicationAgent.workflow_results :=
                  JobApplicationAgent.workflow_results self |})
          else
            let res := {|
              JobApplicationAgent.total_jobs_found := length rs;
              JobApplicationAgent.relevant_jobs :=
                length (sort_desc JobApplicationAgent.relevance_score Qclt apps);
              JobApplicationAgent.applications :=
                sort_desc JobApplicationAgent.relevance_score Qclt apps |} in
            (res,
             {| JobApplicationAgent.scraper := s1;
                JobApplicationAgent.customizer :=
                  JobApplicationAgent.customizer self;
                JobApplicationAgent.workflow_results :=
                  (JobApplicationAgent.workflow_results self ++ [res])%list |})).
Proof.
  intros Hok. unfold JobApplicationAgent.run_workflow.
  destruct (search_jobs_spec _ keywords location num_jobs Hok)
    as (n & js & cs & h' & -> & _ & Hsub & Hjs & Hall & _). simpl.
  assert (Hsnap : Forall (λ c, ∃ d, Store.snapshot h' c = Some d ∧
                                    iterable_requirements d) (take n cs)).
  { apply Forall_take, Forall_forall. intros c Hc.
    apply list_elem_of_lookup in Hc as [i Hi].
    destruct (Forall2_lookup_r _ _ _ _ _ Hall Hi) as (j & Hj & Hcopy).
    assert (Hjok : job_ok (JobScraper.heap (JobApplicationAgent.scraper self)) j).
    { unfold catalog_ok in Hok. rewrite Forall_forall in Hok.
      eapply Hok, elem_of_sublist; [|exact Hjs].
      apply list_elem_of_lookup. eauto. }
    destruct (job_ok_mono _ h' j Hsub Hjok) as [Hjok' _].
    destruct (job_ok_iterable h' j Hjok') as (d & Hd & Hit).
    exists d. split; [|done]. rewrite <- Hd.
    destruct Hcopy as (_ & d0 & Hd1 & Hd2). unfold Store.snapshot.
    by rewrite Hd1, Hd2. }
  destruct (apply_loop_jobs (JobApplicationAgent.customizer self) h'
              (ResumeCustomizer.skills
                 (ResumeCustomizer.get_sample_resume
                    (JobApplicationAgent.customizer self)))
              min_relevance (take n cs) [] Hsnap) as (apps & Happly & Happs).
  exists (take n cs),
    {| JobScraper.heap := h';
       JobScraper.sample_jobs :=
         JobScraper.sample_jobs (JobApplicationAgent.scraper self) |}, apps.
  split_and!; [exact Hsub|reflexivity| |].
  - eapply Forall_impl; [exact Happs|]. intros a [Hs Hin]. split; [done|].
    simpl. rewrite Forall_forall in Hsnap.
    destruct (Hsnap _ Hin) as (d & -> & _). by eexists.
  - case_bool_decide; [done|]. by rewrite Happly.
Qed.



Lemma batch_apply_loop_spec {Model Vocab}
    (self : JobApplicationAgent.t Model Vocab) (threshold : Qc)
    (apps : list JobApplicationAgent.Application) :
  ∀ results : list JobApplicationAgent.ApplicationResult.t,
  Forall (λ a, is_Some (Store.snapshot
                          (JobScraper.heap (JobApplicationAgent.scraper self))
                          (JobApplicationAgent.job a))) apps →
  ∃ rs,
    JobApplicationAgent.batch_apply_loop self apps threshold results
    = Ok (results ++ rs)%list ∧
    JobApplicationAgent.ApplicationResult.relevance_score <$> rs
    = filter (λ q, (threshold ≤ q)%Qc)
             (JobApplicationAgent.relevance_score <$> apps) ∧
    Forall (λ r, JobApplicationAgent.ApplicationResult.status r = "Submitted")
           rs.
Proof.
  induction apps as [|a apps IH]; intros results Hok.
  { exists []. rewrite app_nil_r. by split_and!. }
  apply Forall_cons in Hok as [[d Hd] Hrest].
  cbn [JobApplicationAgent.batch_apply_loop].
  rewrite fmap_cons, filter_cons.
  destruct (decide (threshold ≤ JobApplicationAgent.relevance_score a)%Qc).
  - unfold JobApplicationAgent.apply_to_job. rewrite Hd. simpl.
    match goal with
    | |- context [JobApplicationAgent.batch_apply_loop _ _ _ (_ ++ [?r])] =>
        destruct (IH (results ++ [r])%list Hrest) as (rs & -> & Hs & Hst);
        exists (r :: rs)
    end.
    rewrite <- app_assoc. split_and!; [done| |by constructor].
    rewrite fmap_cons. simpl. by rewrite Hs.
  - destruct (IH results Hrest) as (rs & -> & Hs & Hst). by exists rs.
Qed.

(** X20: after [run_workflow], [batch_apply] on the applications of the
    run returns for every threshold: it submits, in ranking order,
    exactly the applications that score at least the threshold, each with
    status "Submitted", and all of them when the threshold is not above
    [min_relevance]. *)
Theorem batch_apply_after_workflow {Model Vocab}
    (self : JobApplicationAgent.t Model Vocab)
    (keywords location : string) (num_jobs : Z) (min_relevance : Qc) :
  catalog_ok (JobApplicationAgent.scraper self) →
  ∃ res self',
    JobApplicationAgent.run_workflow self keywords location num_jobs
      min_relevance = Ok (res, self') ∧
    ∀ threshold, ∃ results,
      JobApplicationAgent.batch_apply self'
        (JobApplicationAgent.applications res) threshold = Ok results ∧
      JobApplicationAgent.ApplicationResult.relevance_score <$> results
      = filter (λ q, (threshold ≤ q)%Qc)
               (JobApplicationAgent.relevance_score
                  <$> JobApplicationAgent.applications res) ∧
      Forall (λ r, JobApplicationAgent.ApplicationResult.status r
                   = "Submitted") results ∧
      ((threshold ≤ min_relevance)%Qc →
       length results = length (JobApplicationAgent.applications res)).
Proof.
  intros Hok.
  destruct (run_workflow_spec self keywords location num_jobs min_relevance Hok)
    as (rs & s1 & apps & _ & _ & Happs & Hrun).
  rewrite Hrun. clear Hrun.
  assert (Hsorted : Forall
            (λ a, (min_relevance ≤ JobApplicationAgent.relevance_score a)%Qc ∧
                  is_Some (Store.snapshot (JobScraper.heap s1)
                             (JobApplicationAgent.job a)))
            (sort_desc JobApplicationAgent.relevance_score Qclt apps))
    by (by rewrite sort_desc_perm).
  assert (Hgen : ∀ (self' : JobApplicationAgent.t Model Vocab) res,
            JobApplicationAgent.scraper self' = s1 →
            Forall (λ a, (min_relevance
                          ≤ JobApplicationAgent.relevance_score a)%Qc ∧
                         is_Some (Store.snapshot (JobScraper.heap s1)
                                    (JobApplicationAgent.job a)))
                   (JobApplicationAgent.applications res) →
            ∀ threshold, ∃ results,
              JobApplicationAgent.batch_apply self'
                (JobApplicationAgent.applications res) threshold = Ok results ∧
              JobApplicationAgent.ApplicationResult.relevance_score <$> results
              = filter (λ q, (threshold ≤ q)%Qc)
                  (JobApplicationAgent.relevance_score
                     <$> JobApplicationAgent.applications res) ∧
              Forall (λ r, JobApplicationAgent.ApplicationResult.status r
                           = "Submitted") results ∧
              ((threshold ≤ min_relevance)%Qc →
               length results
               = length (JobApplicationAgent.applications res))).
  { intros self' res Hs1 Hall threshold.
    destruct (batch_apply_loop_spec self' threshold
                (JobApplicationAgent.applications res) [])
      as (results & Hb & Hscores & Hst).
    { rewrite Hs1. eapply Forall_impl; [exact Hall|]. by intros a [_ ?]. }
    exists results. split_and!; [done..|].
    intros Hle. rewrite <- (length_fmap
      JobApplicationAgent.ApplicationResult.relevance_score), Hscores.
    rewrite <- (length_fmap JobApplicationAgent.relevance_score
                  (JobApplicationAgent.applications res)).
    f_equal. clear Hb Hscores.
    induction Hall as [|a l [Ha _] _ IH]; [done|].
    rewrite fmap_cons, filter_cons, decide_True by by etrans.
    by rewrite IH. }
  case_bool_decide.
  - eexists _, _. split; [reflexivity|]. apply Hgen; [done|constructor].
  - eexists _, _. split; [reflexivity|]. by apply Hgen.
Qed.

Lemma batch_apply_after_workflow_witness :
  let agent :=
    JobApplicationAgent.__init__ (JobScraper.__init__ ∅)
      (ResumeCustomizer.__init__ tt tt) in
  ∃ res self' results,
    JobApplicationAgent.run_workflow agent "python" "" 5 Qc_half
    = Ok (res, self') ∧
    JobApplicationAgent.batch_apply self'
      (JobApplicationAgent.applications res) Qc_half = Ok results ∧
    length results = length (JobApplicationAgent.applications res).
Proof.
  intros agent.
  destruct (batch_apply_after_workflow agent "python" "" 5 Qc_half)
    as (res & self' & Hrun & Hbatch).
  - apply (bool_decide_unpack (catalog_ok (JobScraper.__init__ ∅))).
    vm_compute. exact I.
  - destruct (Hbatch Qc_half) as (results & Hb & _ & _ & Hlen).
    exists res, self', results.
    split_and!; [exact Hrun|exact Hb|apply Hlen; reflexivity].
Defined.

(** ** The vocabulary *)

Lemma add_terms_lookup_notin (vs : Z) (terms : list string) :
  ∀ (idx : Z) (w : gmap string Z) (k : string),
  k ∉ terms → MAYINIVocabulary.add_terms vs terms idx w !! k = w !! k.
Proof.
  induction terms as [|t terms IH]; intros idx w k Hk; [done|]. simpl.
  apply not_elem_of_cons in Hk as [Hne Hk]. case_bool_decide.
  - rewrite IH by done. by rewrite lookup_insert_ne.
  - by apply IH.
Qed.

Lemma add_terms_inv (vs : Z) (terms : list string) :
  ∀ (idx : Z) (w : gmap string Z),
  0 ≤ idx →
  (∀ k i, w !! k = Some i → 0 ≤ i < idx) →
  (∀ k1 k2 i, w !! k1 = Some i → w !! k2 = Some i → k1 = k2) →
  let w' := MAYINIVocabulary.add_terms vs terms idx w in
  (∀ k1 k2 i, w' !! k1 = Some i → w' !! k2 = Some i → k1 = k2) ∧
  (∀ k i, w' !! k = Some i → 0 ≤ i ∧ (i < idx ∨ i < vs)) ∧
  (∀ k i, w' !! k = Some i → w !! k = Some i ∨ k ∈ terms).
Proof.
  induction terms as [|t terms IH]; intros idx w Hpos Hlt Hinj; simpl.
  { split_and!; [done| |by left]. intros k i Hk.
    destruct (Hlt k i Hk). split; [done|by left]. }
  case_bool_decide as Hidx.
  - destruct (IH (idx + 1) (<[t := idx]> w)) as (Hinj' & Hlt' & Hdom');
      [lia| | |].
    + intros k i. rewrite lookup_insert_Some. intros [[_ <-]|[_ Hk]]; [lia|].
      specialize (Hlt k i Hk). lia.
    + intros k1 k2 i. rewrite !lookup_insert_Some.
      intros [[<- <-]|[Hne1 Hk1]] [[<- Hi]|[Hne2 Hk2]]; try done.
      * specialize (Hlt k2 _ Hk2). lia.
      * specialize (Hlt k1 _ Hk1). lia.
      * by eapply Hinj.
    + split_and!; [done| |].
      * intros k i Hk. destruct (Hlt' k i Hk) as [? [?|?]]; split; try done;
          [|by right]. destruct (decide (i < idx)); [by left|right; lia].
      * intros k i Hk. destruct (Hdom' k i Hk) as [Hw|Hin]; [|right; by right].
        apply lookup_insert_Some in Hw as [[<- _]|[_ Hw]];
          [right; by left|by left].
  - destruct (IH idx w Hpos Hlt Hinj) as (Hinj' & Hlt' & Hdom').
    split_and!; [done..|]. intros k i Hk.
    destruct (Hdom' k i Hk); [by left|right; by right].
Qed.

Lemma reverse_mapping_lookup (w : gmap string Z) (i : Z) (k : string) :
  (∀ k1 k2 i, w !! k1 = Some i → w !! k2 = Some i → k1 = k2) →
  MAYINIVocabulary.reverse_mapping w !! i = Some k ↔ w !! k = Some i.
Proof.
  intros Hinj. unfold MAYINIVocabulary.reverse_mapping.
  rewrite <- elem_of_list_to_map.
  - rewrite list_elem_of_fmap. split.
    + intros ([k' i'] & [= -> ->] & Hin). by apply elem_of_map_to_list.
    + intros Hk. exists (k, i). split; [done|]. by apply elem_of_map_to_list.
  - rewrite <- list_fmap_compose. apply NoDup_fmap_2_strong.
    + intros [k1 i1] [k2 i2] H1%elem_of_map_to_list H2%elem_of_map_to_list.
      simpl. intros <-. f_equal. by eapply Hinj.
    + apply NoDup_map_to_list.
Qed.

Lemma special_tokens_lookup (k : string) (i : Z) :
  MAYINIVocabulary.special_tokens !! k = Some i ↔
  (k = "<PAD>" ∧ i = 0) ∨ (k = "<UNK>" ∧ i = 1) ∨ (k = "<START>" ∧ i = 2) ∨
  (k = "<END>" ∧ i = 3) ∨ (k = "<MASK>" ∧ i = 4).
Proof.
  unfold MAYINIVocabulary.special_tokens.
  rewrite !lookup_insert_Some, lookup_singleton_Some. split.
  - intros [[<- <-]|[_ [[<- <-]|[_ [[<- <-]|[_ [[<- <-]|[_ [<- <-]]]]]]]]];
      tauto.
  - intros [[-> ->]|[[-> ->]|[[-> ->]|[[-> ->]|[-> ->]]]]].
    + by left.
    + right. split; [done|]. by left.
    + right. split; [done|]. right. split; [done|]. by left.
    + right. split; [done|]. right. split; [done|]. right. split; [done|].
      by left.
    + right. split; [done|]. right. split; [done|]. right. split; [done|].
      right. by split.
Qed.

Lemma common_terms_plain :
  Forall (λ t, String.prefix "<" t = false) MAYINIVocabulary.common_terms.
Proof. repeat constructor. Qed.

(** What [__init__] builds, for every [vocab_size]. *)
Lemma vocabulary_init_spec (vs : Z) :
  let w := MAYINIVocabulary.word_to_id (MAYINIVocabulary.__init__ vs) in
  w !! "<UNK>" = Some 1 ∧ w !! "<PAD>" = Some 0 ∧
  (∀ k i, w !! k = Some i → 0 ≤ i ∧ (i < 5 ∨ i < vs)) ∧
  (∀ k i, w !! k = Some i → String.prefix "<" k = true → i < 5) ∧
  (∀ i k, MAYINIVocabulary.id_to_word (MAYINIVocabulary.__init__ vs) !! i
          = Some k ↔ w !! k = Some i).
Proof.
  unfold MAYINIVocabulary.__init__.
  cbv beta zeta iota delta
    [MAYINIVocabulary.word_to_id MAYINIVocabulary.id_to_word].
  destruct (add_terms_inv vs MAYINIVocabulary.common_terms 5
              MAYINIVocabulary.special_tokens) as (Hinj & Hlt & Hdom).
  - lia.
  - intros k i Hk%special_tokens_lookup.
    destruct Hk as [[_ ->]|[[_ ->]|[[_ ->]|[[_ ->]|[_ ->]]]]]; lia.
  - intros k1 k2 i H1%special_tokens_lookup H2%special_tokens_lookup.
    destruct H1 as [[-> ->]|[[-> ->]|[[-> ->]|[[-> ->]|[-> ->]]]]];
      destruct H2 as [[-> ?]|[[-> ?]|[[-> ?]|[[-> ?]|[-> ?]]]]];
      done || lia.
  - split_and!.
    + rewrite add_terms_lookup_notin; [done|].
      apply (bool_decide_unpack _). vm_compute. exact I.
    + rewrite add_terms_lookup_notin; [done|].
      apply (bool_decide_unpack _). vm_compute. exact I.
    + done.
    + intros k i Hk Hpre. destruct (Hdom k i Hk) as [Hs|Hin].
      * apply special_tokens_lookup in Hs.
        destruct Hs as [[_ ->]|[[_ ->]|[[_ ->]|[[_ ->]|[_ ->]]]]]; lia.
      * pose proof common_terms_plain as Hplain.
        rewrite Forall_forall in Hplain. rewrite (Hplain k Hin) in Hpre. done.
    + intros i k. by apply reverse_mapping_lookup.
Qed.

Lemma encode_tokens_ok (self : MAYINIVocabulary.t) (tokens : list string)
    (unk : Z) :
  MAYINIVocabulary.word_to_id self !! "<UNK>" = Some unk →
  MAYINIVocabulary.encode_tokens self tokens
  = Ok ((λ token, default unk (MAYINIVocabulary.word_to_id self !! token))
          <$> tokens).
Proof.
  intros Hunk. induction tokens as [|t tokens IH]; [done|].
  cbn [MAYINIVocabulary.encode_tokens]. unfold MAYINIVocabulary.word_id.
  rewrite Hunk. simpl. by rewrite IH.
Qed.

Lemma pad_ok (self : MAYINIVocabulary.t) (n : nat) (p : Z) :
  MAYINIVocabulary.word_to_id self !! "<PAD>" = Some p →
  ∀ token_ids,
  MAYINIVocabulary.pad self n token_ids
  = Ok (token_ids ++ replicate n p)%list.
Proof.
  intros Hpad. induction n as [|n IH]; intros token_ids; simpl.
  { by rewrite app_nil_r. }
  unfold MAYINIVocabulary.word_id. rewrite Hpad. simpl.
  by rewrite IH, <- app_assoc.
Qed.

Lemma encode_ok (vs : Z) (text : string) (max_len : Z) :
  0 ≤ max_len →
  let self := MAYINIVocabulary.__init__ vs in
  let tokens := take (Z.to_nat max_len) (Str.split (Str.lower text)) in
  MAYINIVocabulary.encode self text max_len
  = Ok (((λ token, default 1 (MAYINIVocabulary.word_to_id self !! token))
           <$> tokens)
        ++ replicate (Z.to_nat max_len - length tokens)%nat 0)%list.
Proof.
  intros Hlen self tokens.
  pose proof (vocabulary_init_spec vs) as Hinit. cbv zeta in Hinit.
  fold self in Hinit. clearbody self.
  destruct Hinit as (Hunk & Hpad & _).
  unfold MAYINIVocabulary.encode.
  assert (Hslice : ∀ {A} (l : list A),
            slice_to max_len l = take (Z.to_nat max_len) l).
  { intros A l. unfold slice_to. by rewrite (proj2 (Z.leb_le 0 max_len)). }
  rewrite Hslice. fold tokens.
  rewrite (encode_tokens_ok self tokens 1 Hunk).
  cbn [mbind result_bind].
  rewrite (pad_ok self _ 0 Hpad).
  cbn [mbind result_bind].
  rewrite Hslice, length_fmap.
  replace (Z.to_nat (max_len - Z.of_nat (length tokens)))
    with (Z.to_nat max_len - length tokens)%nat by lia.
  f_equal. apply take_ge. rewrite length_app, length_fmap, length_replicate.
  assert (length tokens ≤ Z.to_nat max_len)%nat; [|lia].
  unfold tokens. rewrite length_take. lia.
Qed.

Lemma add_terms_size (vs : Z) (terms : list string) :
  NoDup terms →
  ∀ idx w, (∀ term, term ∈ terms → w !! term = None) →
  size (MAYINIVocabulary.add_terms vs terms idx w)
  = (size w + length terms `min` Z.to_nat (vs - idx))%nat.
Proof.
  induction 1 as [|term terms Hnotin Hnd IH]; intros idx w Hw.
  { simpl. lia. }
  cbn [MAYINIVocabulary.add_terms]. case_bool_decide as Hidx.
  - rewrite IH.
    + rewrite map_size_insert_None by (apply Hw; left). cbn [length]. lia.
    + intros term' Hin. rewrite lookup_insert_ne.
      * apply Hw. by right.
      * intros ->. done.
  - rewrite IH by (intros term' Hin; apply Hw; by right). cbn [length]. lia.
Qed.

(** The size of the vocabulary. *)
Lemma vocabulary_size (vs : Z) :
  MAYINIVocabulary.current_vocab_size (MAYINIVocabulary.__init__ vs)
  = (5 + 77 `min` Z.to_nat (vs - 5))%nat.
Proof.
  unfold MAYINIVocabulary.__init__.
  cbv beta zeta iota delta [MAYINIVocabulary.current_vocab_size].
  rewrite add_terms_size.
  - reflexivity.
  - apply (bool_decide_unpack _). vm_compute. exact I.
  - apply Forall_forall.
    apply (bool_decide_unpack
             (Forall (λ term, MAYINIVocabulary.special_tokens !! term = None)
                MAYINIVocabulary.common_terms)).
    vm_compute. exact I.
Qed.

(** X21: the vocabulary built by [__init__]: the padding and unknown
    tokens have ids 0 and 1, every id is non-negative and below 5 or
    [vocab_size], no two words share an id, [id_to_word] is the inverse of
    [word_to_id], and the vocabulary has 5 + min(77, max(0, vocab_size - 5))
    words. *)
Theorem vocabulary_init_invariant (vs : Z) :
  let self := MAYINIVocabulary.__init__ vs in
  let w := MAYINIVocabulary.word_to_id self in
  w !! "<PAD>" = Some 0 ∧ w !! "<UNK>" = Some 1 ∧
  (∀ k i, w !! k = Some i → 0 ≤ i ∧ (i < 5 ∨ i < vs)) ∧
  (∀ k1 k2 i, w !! k1 = Some i → w !! k2 = Some i → k1 = k2) ∧
  (∀ i k, MAYINIVocabulary.id_to_word self !! i = Some k ↔ w !! k = Some i) ∧
  MAYINIVocabulary.current_vocab_size self
  = (5 + 77 `min` Z.to_nat (vs - 5))%nat.
Proof.
  intros self w.
  pose proof (vocabulary_init_spec vs) as Hinit.
  pose proof (vocabulary_size vs) as Hsize. cbv zeta in Hinit.
  fold self in Hinit, Hsize. fold w in Hinit. clearbody w. clearbody self.
  destruct Hinit as (Hunk & Hpad & Hrange & _ & Hrev).
  split_and!; try done.
  intros k1 k2 i H1 H2. apply Hrev in H1, H2. congruence.
Qed.

(** X22: for a non-negative [max_len], [encode] returns, without raising,
    exactly [max_len] ids, each non-negative and below 5 or [vocab_size],
    and every position past the words of the text holds the padding
    id 0. *)
Theorem encode_shape (vs : Z) (text : string) (max_len : Z) :
  0 ≤ max_len →
  ∃ token_ids,
    MAYINIVocabulary.encode (MAYINIVocabulary.__init__ vs) text max_len
    = Ok token_ids ∧
    Z.of_nat (length token_ids) = max_len ∧
    Forall (λ i, 0 ≤ i ∧ (i < 5 ∨ i < vs)) token_ids ∧
    (∀ n, (length (Str.split (Str.lower text)) ≤ n)%nat →
          token_ids !! n = Some 0 ∨ token_ids !! n = None).
Proof.
  intros Hlen.
  pose proof (encode_ok vs text max_len Hlen) as Henc.
  pose proof (vocabulary_init_spec vs) as Hinit. cbv zeta in Henc, Hinit.
  set (self := MAYINIVocabulary.__init__ vs) in *. clearbody self.
  eexists. split; [exact Henc|]. clear Henc.
  destruct Hinit as (Hunk & Hpad & Hrange & _).
  set (tokens := take (Z.to_nat max_len) (Str.split (Str.lower text))).
  assert (length tokens ≤ Z.to_nat max_len)%nat as Hle.
  { unfold tokens. rewrite length_take. lia. }
  split_and!.
  - rewrite length_app, length_fmap, length_replicate. lia.
  - apply Forall_app. split.
    + apply Forall_fmap, Forall_forall. intros token _. simpl.
      destruct (_ !! token) as [i|] eqn:Hi; simpl; [by eapply Hrange|lia].
    + apply Forall_replicate. lia.
  - intros n Hn.
    assert (length tokens ≤ n)%nat as Hn'.
    { unfold tokens. rewrite length_take. lia. }
    rewrite lookup_app_r by (by rewrite length_fmap).
    rewrite length_fmap.
    destruct (replicate _ _ !! _) as [i|] eqn:Hi; [|by right].
    apply lookup_replicate in Hi as [-> _]. by left.
Qed.

Lemma filter_replicate_False {A} (P : A → Prop) `{!∀ x, Decision (P x)}
    (n : nat) (x : A) :
  ¬ P x → filter P (replicate n x) = [].
Proof.
  intros Hx. induction n as [|n IH]; [done|]. simpl.
  by rewrite filter_cons_False.
Qed.

(** X23: decoding an encoded text gives back, in order and joined by single
    spaces, the lower-cased words of its first [max_len] words that are in
    the vocabulary; unknown words and the padding disappear. *)
Theorem decode_encode (vs : Z) (text : string) (max_len : Z) :
  0 ≤ max_len →
  let self := MAYINIVocabulary.__init__ vs in
  ∃ token_ids,
    MAYINIVocabulary.encode self text max_len = Ok token_ids ∧
    MAYINIVocabulary.decode self token_ids
    = Str.join " "
        (filter (λ token, known_word self token = true)
           (take (Z.to_nat max_len) (Str.split (Str.lower text)))).
Proof.
  intros Hlen self.
  pose proof (encode_ok vs text max_len Hlen) as Henc.
  pose proof (vocabulary_init_spec vs) as Hinit. cbv zeta in Henc, Hinit.
  fold self in Henc, Hinit. clearbody self.
  eexists. split; [exact Henc|]. clear Henc.
  destruct Hinit as (Hunk & Hpad & _ & _ & Hrev).
  unfold MAYINIVocabulary.decode. f_equal.
  rewrite fmap_app, filter_app, fmap_replicate.
  assert (MAYINIVocabulary.id_to_word self !! 0 = Some "<PAD>") as ->
    by by apply Hrev.
  rewrite filter_replicate_False by done. rewrite app_nil_r.
  induction (take _ _) as [|token tokens IH]; [done|].
  rewrite !fmap_cons, !filter_cons, IH. unfold known_word. cbv beta.
  destruct (MAYINIVocabulary.word_to_id self !! token) as [i|] eqn:Hi.
  - cbn [from_option id]. apply Hrev in Hi. rewrite Hi. cbn [from_option id].
    destruct (String.prefix "<" token) eqn:Hp; simpl;
      repeat case_decide; done.
  - cbn [from_option id].
    assert (MAYINIVocabulary.id_to_word self !! 1 = Some "<UNK>") as ->
      by by apply Hrev.
    repeat case_decide; done.
Qed.

Lemma encode_shape_witness :
  0 ≤ 4 ∧
  ∃ token_ids,
    MAYINIVocabulary.encode (MAYINIVocabulary.__init__ 50)
      "Senior Python developer" 4 = Ok token_ids ∧
    Z.of_nat (length token_ids) = 4 ∧
    Forall (λ i, 0 ≤ i ∧ (i < 5 ∨ i < 50)) token_ids ∧
    (∀ n, (length (Str.split (Str.lower "Senior Python developer")) ≤ n)%nat →
          token_ids !! n = Some 0 ∨ token_ids !! n = None).
Proof.
  split; [lia|]. apply (encode_shape 50 "Senior Python developer" 4). lia.
Defined.

Lemma decode_encode_witness :
  0 ≤ 4 ∧
  ∃ token_ids,
    MAYINIVocabulary.encode (MAYINIVocabulary.__init__ 50)
      "Senior Python developer" 4 = Ok token_ids ∧
    MAYINIVocabulary.decode (MAYINIVocabulary.__init__ 50) token_ids
    = Str.join " "
        (filter (λ token,
                   known_word (MAYINIVocabulary.__init__ 50) token = true)
           (take (Z.to_nat 4)
              (Str.split (Str.lower "Senior Python developer")))).
Proof.
  split; [lia|]. apply (decode_encode 50 "Senior Python developer" 4). lia.
Defined.

Example encode_ex :
  MAYINIVocabulary.encode (MAYINIVocabulary.__init__ 50)
    "Senior Python developer" 4 = Ok [1; 5; 1; 0] ∧
  MAYINIVocabulary.decode (MAYINIVocabulary.__init__ 50) [1; 5; 1; 0]
  = "python".
Proof. split; vm_compute; reflexivity. Qed.







Lemma validate_job_cases (job : dict) :
  (∃ msg, UtilityFunctions.validate_job job = Ok (false, msg) ∧
          msg ≠ EmptyString ∧
          ¬ ∃ title company reqs,
              job !! "title" = Some title ∧ truthy title = true ∧
              job !! "company" = Some company ∧ truthy company = true ∧
              job !! "requirements" = Some (VList reqs)) ∨
  (UtilityFunctions.validate_job job = Ok (true, EmptyString) ∧
   ∃ title company reqs,
     job !! "title" = Some title ∧ truthy title = true ∧
     job !! "company" = Some company ∧ truthy company = true ∧
     job !! "requirements" = Some (VList reqs)).
Proof.
  unfold UtilityFunctions.validate_job, UtilityFunctions.first_missing,
    getitem.
  destruct (job !! "title") as [title|] eqn:Ht; simpl.
  2:{ left. eexists. split_and!; [done..|]. by intros (?&?&?&?&?). }
  destruct (job !! "company") as [company|] eqn:Hc; simpl.
  2:{ left. eexists. split_and!; [done..|]. by intros (?&?&?&?&?&?&?). }
  destruct (job !! "requirements") as [requirements|] eqn:Hr; simpl.
  2:{ left. eexists. split_and!; [done..|]. by intros (?&?&?&?&?&?&?&?). }
  destruct (truthy title) eqn:Htt; simpl.
  2:{ left. eexists. split_and!; [done..|].
      intros (?&?&?&[= <-]&?&?). congruence. }
  destruct (truthy company) eqn:Htc; simpl.
  2:{ left. eexists. split_and!; [done..|].
      intros (?&?&?&?&?&[= <-]&?&?). congruence. }
  destruct requirements as [s|z|reqs]; simpl.
  - left. eexists. split_and!; [done..|]. by intros (?&?&?&?&?&?&?&?).
  - left. eexists. split_and!; [done..|]. by intros (?&?&?&?&?&?&?&?).
  - right. split; [done|]. by exists title, company, reqs.
Qed.

(** X25: [validate_job] never raises: it accepts exactly the jobs that have
    a title and a company that are true as conditions and a list under
    ['requirements'], and the message is empty exactly when it accepts. *)
Theorem validate_job_spec (job : dict) :
  ∃ ok msg, UtilityFunctions.validate_job job = Ok (ok, msg) ∧
    (ok = true ↔
     ∃ title company reqs,
       job !! "title" = Some title ∧ truthy title = true ∧
       job !! "company" = Some company ∧ truthy company = true ∧
       job !! "requirements" = Some (VList reqs)) ∧
    (ok = true ↔ msg = EmptyString).
Proof.
  destruct (validate_job_cases job) as [(msg & -> & Hmsg & Hno)|[-> Hyes]].
  - exists false, msg. split_and!; [done|split; [done|]|split; done].
    intros Hyes. by destruct Hno.
  - exists true, EmptyString. split_and!; [done|split; done|split; done].
Qed.



Lemma dropwhile_space_app (a b : list ascii) :
  Str.dropwhile_space (a ++ b)
  = match Str.dropwhile_space a with
    | [] => Str.dropwhile_space b
    | c :: l => (c :: l) ++ b
    end%list.
Proof.
  induction a as [|c a IH]; [done|]. simpl.
  destruct (Str.is_space c); [apply IH|done].
Qed.

Lemma dropwhile_space_idemp (l : list ascii) :
  Str.dropwhile_space (Str.dropwhile_space l) = Str.dropwhile_space l.
Proof.
  induction l as [|c l IH]; [done|]. simpl.
  destruct (Str.is_space c) eqn:Hc; [apply IH|]. simpl. by rewrite Hc.
Qed.

Lemma list_ascii_of_string_app (s t : string) :
  list_ascii_of_string (s ++ t)
  = (list_ascii_of_string s ++ list_ascii_of_string t)%list.
Proof. induction s as [|c s IH]; [done|]. simpl. by rewrite IH. Qed.

Lemma string_of_list_ascii_app (a b : list ascii) :
  string_of_list_ascii (a ++ b)
  = string_of_list_ascii a ++ string_of_list_ascii b.
Proof. induction a as [|c a IH]; [done|]. simpl. by rewrite IH. Qed.

(** [rstrip] leaves everything up to a character that is not a space. *)
Lemma rstrip_app_nonspace (p : string) (c : ascii) (t : string) :
  Str.is_space c = false →
  Str.rstrip (p ++ String c t) = p ++ String c (Str.rstrip t).
Proof.
  intros Hc. unfold Str.rstrip.
  rewrite list_ascii_of_string_app. cbn [list_ascii_of_string].
  rewrite rev_app_distr. cbn [rev]. rewrite <- app_assoc. cbn [app].
  rewrite dropwhile_space_app.
  destruct (Str.dropwhile_space (rev (list_ascii_of_string t)))
    as [|c' l] eqn:Hd.
  - cbn [Str.dropwhile_space]. rewrite Hc.
    cbn [rev]. rewrite rev_involutive.
    rewrite string_of_list_ascii_app, string_of_list_ascii_of_string.
    done.
  - rewrite rev_app_distr. cbn [rev]. rewrite rev_involutive.
    rewrite <- app_assoc. cbn [app].
    rewrite string_of_list_ascii_app, string_of_list_ascii_of_string.
    done.
Qed.

Lemma rstrip_cons_nonspace (c : ascii) (t : string) :
  Str.is_space c = false →
  Str.rstrip (String c t) = String c (Str.rstrip t).
Proof. intros Hc. exact (rstrip_app_nonspace EmptyString c t Hc). Qed.

Lemma lstrip_nonspace (s : string) :
  Str.lstrip s = EmptyString ∨
  ∃ c t, Str.lstrip s = String c t ∧ Str.is_space c = false.
Proof.
  induction s as [|c s IH]; [by left|]. simpl.
  destruct (Str.is_space c) eqn:Hc; [done|]. right. by exists c, s.
Qed.

Lemma rstrip_idemp (s : string) : Str.rstrip (Str.rstrip s) = Str.rstrip s.
Proof.
  unfold Str.rstrip. rewrite list_ascii_of_string_of_list_ascii.
  by rewrite rev_involutive, dropwhile_space_idemp.
Qed.

Lemma strip_idemp (s : string) : Str.strip (Str.strip s) = Str.strip s.
Proof.
  unfold Str.strip.
  destruct (lstrip_nonspace s) as [->|(c & t & -> & Hc)]; [done|].
  rewrite (rstrip_cons_nonspace c t Hc).
  cbn [Str.lstrip]. rewrite Hc.
  rewrite (rstrip_cons_nonspace c (Str.rstrip t) Hc).
  by rewrite rstrip_idemp.
Qed.

Lemma strip_letter (body : string) :
  Str.strip (Str.nl ++ "Dear Hiring Manager," ++ body)
  = "Dear Hiring Manager," ++ Str.rstrip body.
Proof.
  unfold Str.strip.
  change (Str.lstrip (Str.nl ++ "Dear Hiring Manager," ++ body))
    with ("Dear Hiring Manager" ++ String "," body).
  by rewrite rstrip_app_nonspace.
Qed.

(** X27: whatever the job and the resume hold, the cover letter opens
    with "Dear Hiring Manager," and has no white space before or after it:
    stripping it again changes nothing. *)
Theorem cover_letter_shape {Model Vocab} (self : ResumeCustomizer.t Model Vocab)
    (job : dict) (resume : ResumeCustomizer.Resume) :
  let letter := ResumeCustomizer.generate_cover_letter self job resume in
  (∃ rest, letter = "Dear Hiring Manager," ++ rest) ∧
  Str.strip letter = letter.
Proof.
  unfold ResumeCustomizer.generate_cover_letter. cbv zeta.
  split.
  - rewrite strip_letter. by eexists.
  - apply strip_idemp.
Qed.
